(** * A* search of [a-star_traitbased] (src/lib.rs), shallow embedding.

    Positions are pairs of [usize]; they are modelled as [nat * nat].  The
    search itself ([step], [run]) adds in [nat]; [step_u] and [run_u] repeat
    it with the two [usize] additions of [create_new_node], which panic on
    overflow in a debug build and wrap in a release build, and the two runs
    agree when no total cost overflows ([run_loop_u_spec]).  The fixture
    [Map] computes in [nat]; its coordinates and costs stay small.

    The frontier [que] is a [Vec<Node>] sorted with the stable [slice::sort]
    and popped with [remove(0)]; the model sorts with a stable insertion sort
    keyed on [heuristic_cost], which produces the same vector.  The closed
    set [closed_nodes] is a [Vec<Rc<Node>>] with pushes at the end. *)

From Stdlib Require Import List Arith Lia Bool Permutation Sorted NArith.
Import ListNotations.

Definition Position := (nat * nat)%type.
Definition Target := (option nat * option nat)%type.

Definition pos_eqb (a b : Position) : bool :=
  (fst a =? fst b) && (snd a =? snd b).

(** The [PathGenerator] trait: a dictionary of its three methods. *)
Record PathGenerator := {
  generate_paths : Position -> list Position;
  calculate_heuristic_cost : Position -> Target -> nat;
  calculate_cost : Position -> Position -> nat
}.

#[local] Set Warnings "-register-all".

(** [struct Node]; [heuristic_cost] is the total cost used for ordering. *)
Inductive Node := mkNode {
  position : Position;
  comes_from : option Node;
  cost : nat;
  heuristic_cost : nat
}.

Definition Node_new (p : Position) (h : nat) : Node := mkNode p None 0 h.

(** [impl Ord for Node]: comparison of [heuristic_cost] only. *)
Definition node_cmp (a b : Node) : comparison :=
  Nat.compare (heuristic_cost a) (heuristic_cost b).

Inductive NextNodeResult (T : Type) := NOk (v : T) | Finished.
Arguments NOk {T} v.
Arguments Finished {T}.

Record AStar := mkAStar {
  target : Target;
  que : list Node;
  closed_nodes : list Node
}.

Definition AStar_new (t : Target) : AStar := mkAStar t [] [].

Definition set_que (inst : AStar) (q : list Node) : AStar :=
  mkAStar (target inst) q (closed_nodes inst).

Definition push_closed (inst : AStar) (n : Node) : AStar :=
  mkAStar (target inst) (que inst) (closed_nodes inst ++ [n]).

(** [Vec::sort] (stable) on [que]: stable insertion sort with [node_cmp]. *)
Fixpoint insert_node (x : Node) (l : list Node) : list Node :=
  match l with
  | [] => [x]
  | y :: r =>
      match node_cmp x y with
      | Gt => y :: insert_node x r
      | _ => x :: l
      end
  end.

Fixpoint sort_nodes (l : list Node) : list Node :=
  match l with
  | [] => []
  | x :: r => insert_node x (sort_nodes r)
  end.

Definition target_is_reached (self : AStar) (node : Node) : bool :=
  if match fst (target self) with
     | Some t0 => negb (t0 =? fst (position node))
     | None => false
     end
  then false
  else if match snd (target self) with
          | Some t1 => negb (t1 =? snd (position node))
          | None => false
          end
  then false
  else true.

Definition create_new_node (self : AStar) (old_node : Node)
    (new_position : Position) (cost' : nat) (heuristic_cost' : nat)
    : NextNodeResult Node :=
  if target_is_reached self old_node then Finished
  else
    let new_cost := cost' + cost old_node in
    NOk (mkNode new_position (Some old_node) new_cost (heuristic_cost' + new_cost)).

(** [reconstruct_path]: the node's position, then its predecessors'. *)
Fixpoint reconstruct_path (opt : Node) : list Position :=
  position opt :: match comes_from opt with
                  | Some p => reconstruct_path p
                  | None => []
                  end.

Definition pull_from_closed_by_position (self : AStar) (p : Position)
    : option Node :=
  find (fun n => pos_eqb (position n) p) (closed_nodes self).

(** The [for possible_path in possible_paths] loop of [run]. *)
Fixpoint expand_paths (g : PathGenerator) (inst : AStar) (top : Node)
    (paths : list Position) : NextNodeResult AStar :=
  match paths with
  | [] => NOk inst
  | p :: ps =>
      match pull_from_closed_by_position inst p with
      | Some _ => expand_paths g inst top ps
      | None =>
          match create_new_node inst top p
                  (calculate_cost g (position top) p)
                  (calculate_heuristic_cost g p (target inst)) with
          | NOk v => expand_paths g (set_que inst (que inst ++ [v])) top ps
          | Finished => Finished
          end
      end
  end.

Inductive LoopStep := Return (r : option (list Position)) | Continue (inst : AStar).

(** One iteration of the [loop] of [run]. *)
Definition step (g : PathGenerator) (inst : AStar) : LoopStep :=
  match que inst with
  | [] => Return None
  | _ =>
      match sort_nodes (que inst) with
      | [] => Return None
      | top :: rest =>
          let inst1 := set_que inst rest in
          let possible_paths := generate_paths g (position top) in
          match (if negb (length possible_paths =? 0)
                 then expand_paths g inst1 top possible_paths
                 else NOk inst1) with
          | Finished => Return (Some (reconstruct_path top))
          | NOk inst2 => Continue (push_closed inst2 top)
          end
      end
  end.

Definition init_state (g : PathGenerator) (start : Position) (t : Target) : AStar :=
  set_que (AStar_new t) [Node_new start (calculate_heuristic_cost g start t)].

(** The loop run for at most [fuel] iterations; [None] when fuel runs out,
    otherwise the state of the returning iteration and the result. *)
Fixpoint run_loop (fuel : nat) (g : PathGenerator) (inst : AStar)
    : option (AStar * option (list Position)) :=
  match fuel with
  | 0 => None
  | S f =>
      match step g inst with
      | Return r => Some (inst, r)
      | Continue inst' => run_loop f g inst'
      end
  end.

(** [AStar::run] with an iteration budget. *)
Definition run (fuel : nat) (g : PathGenerator) (start : Position) (t : Target)
    : option (option (list Position)) :=
  option_map snd (run_loop fuel g (init_state g start t)).

(** Iterating [step] [n] times. *)
Fixpoint iter_step (n : nat) (g : PathGenerator) (inst : AStar) : LoopStep :=
  match n with
  | 0 => Continue inst
  | S k =>
      match iter_step k g inst with
      | Return r => Return r
      | Continue i => step g i
      end
  end.

(** ** The test fixture [Map] of [mod test]. *)

Definition calc_usize_diff (x y : nat) : nat := if y <? x then x - y else y - x.

Definition path_is_possible (blocks : list Position) (p : Position) : option Position :=
  if existsb (pos_eqb p) blocks then None else Some p.

Definition push_possible (blocks : list Position) (acc : list Position)
    (cands : list Position) : list Position :=
  fold_left (fun acc p => match path_is_possible blocks p with
                          | Some q => acc ++ [q]
                          | None => acc
                          end) cands acc.

Definition map_generate_paths (blocks : list Position) (f : Position) : list Position :=
  let acc :=
    if negb (fst f =? 0) && negb (snd f =? 0)
    then push_possible blocks []
           [(fst f - 1, snd f - 1); (fst f, snd f - 1); (fst f - 1, snd f)]
    else [] in
  push_possible blocks acc
    [(fst f + 1, snd f + 1); (fst f, snd f + 1); (fst f + 1, snd f)].

(** [^] is bitwise xor in Rust.  [f64::sqrt(n as f64) as usize] is the
    integer square root for [n < 2^52] (the only values that occur). *)
Definition map_heuristic (p : Position) (t : Target) : nat :=
  match t with
  | (None, None) => 0
  | (None, Some t1) => calc_usize_diff t1 (snd p)
  | (Some t0, None) => calc_usize_diff t0 (fst p)
  | (Some t0, Some t1) =>
      Nat.sqrt (Nat.lxor (calc_usize_diff t0 (fst p)) 2
                + Nat.lxor (calc_usize_diff t1 (snd p)) 2)
  end.

Definition Map (blocks : list Position) : PathGenerator := {|
  generate_paths := map_generate_paths blocks;
  calculate_heuristic_cost := map_heuristic;
  calculate_cost := fun _ _ => 1
|}.

Definition map_fixture : PathGenerator := Map [(2, 2)].


(** Sum of [calculate_cost] over consecutive pairs of a path given in the
    order [run] returns it (end position first, start last). *)
Fixpoint path_cost (g : PathGenerator) (l : list Position) : nat :=
  match l with
  | [] => 0
  | x :: r =>
      match r with
      | [] => 0
      | y :: _ => calculate_cost g y x + path_cost g r
      end
  end.

(** The positions not in the closed set, among [paths]. *)
Definition fresh_paths (inst : AStar) (paths : list Position) : list Position :=
  filter (fun p => match pull_from_closed_by_position inst p with
                   | Some _ => false
                   | None => true
                   end) paths.

(** The node [create_new_node] builds for [p] when it does not finish. *)
Definition child (g : PathGenerator) (inst : AStar) (top : Node) (p : Position) : Node :=
  let new_cost := calculate_cost g (position top) p + cost top in
  mkNode p (Some top) new_cost (calculate_heuristic_cost g p (target inst) + new_cost).

Definition in_closed (inst : AStar) (p : Position) : Prop :=
  In p (map position (closed_nodes inst)).

(** [position] satisfies the target specification [t]: the check
    [target_is_reached] makes on a node at [position]. *)
Definition satisfies (t : Target) (p : Position) : bool :=
  target_is_reached (AStar_new t) (Node_new p 0).

(** Positions reachable from [start] through [generate_paths]. *)
Inductive reachable (g : PathGenerator) (start : Position) : Position -> Prop :=
| reach_start : reachable g start start
| reach_step (p q : Position) :
    reachable g start p -> In q (generate_paths g p) -> reachable g start q.

(** A caller-side generator given by an adjacency list with edge costs and
    a table of heuristic values (0 where absent); used for small examples. *)
Definition graph_edges (adj : list (Position * list (Position * nat))) (p : Position)
    : list (Position * nat) :=
  match find (fun e => pos_eqb (fst e) p) adj with
  | Some e => snd e
  | None => []
  end.

Definition Graph (adj : list (Position * list (Position * nat)))
    (hs : list (Position * nat)) : PathGenerator := {|
  generate_paths := fun p => map fst (graph_edges adj p);
  calculate_heuristic_cost := fun p _ =>
    match find (fun e => pos_eqb (fst e) p) hs with
    | Some e => snd e
    | None => 0
    end;
  calculate_cost := fun p q =>
    match find (fun e => pos_eqb (fst e) q) (graph_edges adj p) with
    | Some e => snd e
    | None => 0
    end
|}.

(** A start whose only neighbour meets the target and is a dead end. *)
Definition g_dead : PathGenerator :=
  Graph [((0, 0), [((1, 1), 1)])] [].

(** Consecutive positions of a path (end first) are generated from each
    other: each one is among the neighbours of the one after it. *)
Fixpoint chain_ok (g : PathGenerator) (l : list Position) : Prop :=
  match l with
  | [] => True
  | x :: r =>
      match r with
      | [] => True
      | y :: _ => In x (generate_paths g y) /\ chain_ok g r
      end
  end.

(** Number of predecessor links of a node: its steps from the start. *)
Fixpoint node_depth (n : Node) : nat :=
  match comes_from n with
  | None => 0
  | Some p => S (node_depth p)
  end.

(** A node built by the search from [start]: the root is the start node
    with cost 0, every other node is a generated neighbour of its
    predecessor and adds the step cost to the predecessor's cost. *)
Fixpoint node_ok (g : PathGenerator) (start : Position) (n : Node) : Prop :=
  match comes_from n with
  | None => position n = start /\ cost n = 0
  | Some p =>
      In (position n) (generate_paths g (position p)) /\
      cost n = calculate_cost g (position p) (position n) + cost p /\
      node_ok g start p
  end.

(** Positions of the strict predecessors of a node. *)
Definition ancestors (n : Node) : list Position :=
  match comes_from n with
  | None => []
  | Some p => reconstruct_path p
  end.

(** Termination measure.  [count_open R Q]: elements of [R] outside [Q];
    [weight R n] bounds the depth of the search tree below [n]; a frontier
    is measured by the sum of [B ^ weight] over its nodes, where [B] exceeds
    every neighbour count on [R]. *)
Definition count_open (R Q : list Position) : nat :=
  length (filter (fun p => negb (existsb (pos_eqb p) Q)) R).

Definition weight (R : list Position) (n : Node) : nat :=
  2 * count_open R (position n :: ancestors n)
  + (if existsb (pos_eqb (position n)) (ancestors n) then 0 else 1).

Definition branching (g : PathGenerator) (R : list Position) : nat :=
  S (list_max (map (fun p => length (generate_paths g p)) R)).

Definition potential (g : PathGenerator) (R : list Position) (q : list Node) : nat :=
  list_sum (map (fun m => branching g R ^ weight R m) q).

(** Invariant of the search from [start] towards [t]: every frontier node
    lies on reachable positions, and its predecessors' positions are closed. *)
Definition term_inv (g : PathGenerator) (start : Position) (t : Target)
    (s : AStar) : Prop :=
  target s = t /\
  forall m, In m (que s) ->
    (forall p, In p (reconstruct_path m) -> reachable g start p) /\
    (forall a, In a (ancestors m) -> in_closed s a).

(** [P] (end first) is a walk from [p]: consecutive positions are
    generated from each other and the last one is [p]. *)
Definition walk_from (g : PathGenerator) (p : Position) (P : list Position) : Prop :=
  chain_ok g P /\ exists pre, P = pre ++ [p].

(** The heuristic never exceeds the cost of a walk reaching the target. *)
Definition admissible (g : PathGenerator) (t : Target) : Prop :=
  forall p P, walk_from g p P -> satisfies t (hd p P) = true ->
  calculate_heuristic_cost g p t <= path_cost g P.

(** The heuristic drops by at most the step cost along each generated edge. *)
Definition consistent (g : PathGenerator) (t : Target) : Prop :=
  forall p q, In q (generate_paths g p) ->
  calculate_heuristic_cost g p t <= calculate_cost g p q + calculate_heuristic_cost g q t.

(** Invariant of the search used for optimality: frontier nodes are built
    by the search and carry [heuristic_cost = cost + h]; the start is in the
    frontier until closed; each closed position has a closed node whose cost
    is at most that of any walk to it and whose neighbours are closed or in
    the frontier at a cost at most that node's cost plus the step. *)
Definition opt_inv (g : PathGenerator) (start : Position) (t : Target)
    (s : AStar) : Prop :=
  target s = t /\
  (forall m, In m (que s) -> node_ok g start m /\
     heuristic_cost m = cost m + calculate_heuristic_cost g (position m) t) /\
  (~ in_closed s start -> exists n, In n (que s) /\ position n = start /\ cost n = 0) /\
  (forall y, in_closed s y ->
     exists m, In m (closed_nodes s) /\ position m = y /\
       (forall Q, walk_from g start Q -> hd start Q = y -> cost m <= path_cost g Q) /\
       (forall q, In q (generate_paths g y) -> in_closed s q \/
          exists n, In n (que s) /\ position n = q /\
                    cost n <= cost m + calculate_cost g y q)).

(** An admissible but inconsistent heuristic: [h (1, 0) = 4] makes the
    search close (1, 1) through the dearer route via (0, 1) first. *)
Definition incons_edges : list (Position * list (Position * nat)) :=
  [((0, 0), [((1, 0), 1); ((0, 1), 1)]);
   ((1, 0), [((1, 1), 1)]);
   ((0, 1), [((1, 1), 2)]);
   ((1, 1), [((5, 5), 3)]);
   ((5, 5), [((6, 6), 1)])].

Definition g_incons : PathGenerator := Graph incons_edges [((1, 0), 4)].

(** Remaining distances to (5, 5) in [incons_edges]. *)
Definition incons_dist : PathGenerator :=
  Graph incons_edges [((0, 0), 5); ((1, 0), 4); ((0, 1), 5); ((1, 1), 3)].

(** The same graph with the zero heuristic. *)
Definition g_zero : PathGenerator := Graph incons_edges [].

(** A target position (3, 0) that is a dead end, next to a dearer one. *)
Definition g_slip : PathGenerator :=
  Graph [((0, 0), [((3, 0), 1); ((3, 1), 5)]); ((3, 1), [((9, 9), 1)])] [].

(** The state of [g_dead] after the first iteration: the start is closed
    and only the node of [(1, 1)] is in the frontier. *)
Definition dead_start_node : Node := mkNode (0, 0) None 0 0.
Definition dead_node : Node := mkNode (1, 1) (Some dead_start_node) 1 1.
Definition dead_state : AStar := mkAStar (Some 1, Some 1) [dead_node] [dead_start_node].

(** [impl PartialEq for Node] and the methods [impl PartialOrd for Node]
    overrides; [slice::sort] orders with [lt]. *)
Definition node_eq (a b : Node) : bool := heuristic_cost a =? heuristic_cost b.
Definition node_partial_cmp (a b : Node) : option comparison := Some (node_cmp a b).
Definition node_ge (a b : Node) : bool := heuristic_cost b <=? heuristic_cost a.
Definition node_le (a b : Node) : bool := heuristic_cost a <=? heuristic_cost b.
Definition node_gt (a b : Node) : bool := heuristic_cost b <? heuristic_cost a.
Definition node_lt (a b : Node) : bool := heuristic_cost a <? heuristic_cost b.




(** ** [usize] arithmetic

    The two additions of [create_new_node] are [usize] additions: they
    panic on overflow in a debug build and wrap modulo [2^64] in a release
    build (64-bit target).  [None] stands for the panic. *)
Inductive Build := Debug | Release.

Definition usize_modulus : N := (2 ^ 64)%N.

Definition usize_max : nat := N.to_nat (usize_modulus - 1).

Definition fits_usize (x : nat) : Prop := (N.of_nat x < usize_modulus)%N.

Definition usize_add (b : Build) (x y : nat) : option nat :=
  let s := (N.of_nat x + N.of_nat y)%N in
  if (s <? usize_modulus)%N then Some (x + y)
  else match b with
       | Debug => None
       | Release => Some (N.to_nat (s mod usize_modulus))
       end.

(** [create_new_node] with [usize] additions. *)
Definition create_new_node_u (b : Build) (self : AStar) (old_node : Node)
    (new_position : Position) (cost' : nat) (heuristic_cost' : nat)
    : option (NextNodeResult Node) :=
  if target_is_reached self old_node then Some Finished
  else
    match usize_add b cost' (cost old_node) with
    | None => None
    | Some new_cost =>
        match usize_add b heuristic_cost' new_cost with
        | None => None
        | Some h => Some (NOk (mkNode new_position (Some old_node) new_cost h))
        end
    end.

Fixpoint expand_paths_u (b : Build) (g : PathGenerator) (inst : AStar) (top : Node)
    (paths : list Position) : option (NextNodeResult AStar) :=
  match paths with
  | [] => Some (NOk inst)
  | p :: ps =>
      match pull_from_closed_by_position inst p with
      | Some _ => expand_paths_u b g inst top ps
      | None =>
          match create_new_node_u b inst top p
                  (calculate_cost g (position top) p)
                  (calculate_heuristic_cost g p (target inst)) with
          | None => None
          | Some (NOk v) => expand_paths_u b g (set_que inst (que inst ++ [v])) top ps
          | Some Finished => Some Finished
          end
      end
  end.

Inductive LoopStepU :=
| ReturnU (r : option (list Position))
| ContinueU (inst : AStar)
| PanicU.

(** One iteration of the [loop] of [run] with [usize] additions. *)
Definition step_u (b : Build) (g : PathGenerator) (inst : AStar) : LoopStepU :=
  match que inst with
  | [] => ReturnU None
  | _ =>
      match sort_nodes (que inst) with
      | [] => ReturnU None
      | top :: rest =>
          let inst1 := set_que inst rest in
          let possible_paths := generate_paths g (position top) in
          match (if negb (length possible_paths =? 0)
                 then expand_paths_u b g inst1 top possible_paths
                 else Some (NOk inst1)) with
          | None => PanicU
          | Some Finished => ReturnU (Some (reconstruct_path top))
          | Some (NOk inst2) => ContinueU (push_closed inst2 top)
          end
      end
  end.

(** What [run] does: return a value, or panic. *)
Inductive RunResult := Ret (r : option (list Position)) | Panic.

Fixpoint run_loop_u (b : Build) (fuel : nat) (g : PathGenerator) (inst : AStar)
    : option (AStar * RunResult) :=
  match fuel with
  | 0 => None
  | S f =>
      match step_u b g inst with
      | ReturnU r => Some (inst, Ret r)
      | PanicU => Some (inst, Panic)
      | ContinueU inst' => run_loop_u b f g inst'
      end
  end.

(** [AStar::run] with [usize] additions and an iteration budget. *)
Definition run_u (b : Build) (fuel : nat) (g : PathGenerator) (start : Position)
    (t : Target) : option RunResult :=
  option_map snd (run_loop_u b fuel g (init_state g start t)).

(** No addition of the run overflows: every node the search builds has a
    total cost (its largest sum) below [2^64]. *)
Definition no_overflow (g : PathGenerator) (start : Position) (t : Target) : Prop :=
  forall n s, iter_step n g (init_state g start t) = Continue s ->
  forall m, In m (que s) -> fits_usize (heuristic_cost m).

(** A decision of [no_overflow] for runs that return within [fuel]
    iterations. *)
Definition que_fits (s : AStar) : bool :=
  forallb (fun m => (N.of_nat (heuristic_cost m) <? usize_modulus)%N) (que s).

Fixpoint check_no_overflow (fuel : nat) (g : PathGenerator) (inst : AStar) : bool :=
  match fuel with
  | 0 => false
  | S f =>
      que_fits inst &&
      match step g inst with
      | Return _ => true
      | Continue i => check_no_overflow f g i
      end
  end.

(** A finite generator without target position whose heuristic is
    [usize::MAX] at (1, 1): the total cost of the node of (1, 1) is
    [usize::MAX + 1]. *)
Definition g_big : PathGenerator := {|
  generate_paths := fun p => if pos_eqb p (0, 0) then [(1, 1)] else [];
  calculate_heuristic_cost := fun p _ => if pos_eqb p (1, 1) then usize_max else 0;
  calculate_cost := fun _ _ => 1
|}.

(** A frontier of four nodes whose least total cost (2, shared by two
    nodes) is not at its front. *)
Definition mixed_state : AStar :=
  mkAStar (Some 3, Some 3)
    [mkNode (2, 0) None 0 5; mkNode (1, 1) None 0 2;
     mkNode (0, 2) None 0 2; mkNode (2, 1) None 0 3] [].

(** * General lemmas *)

Lemma pos_eqb_eq (a b : Position) : pos_eqb a b = true <-> a = b.
Proof.
  destruct a as [a1 a2], b as [b1 b2]; unfold pos_eqb; simpl.
  rewrite andb_true_iff, !Nat.eqb_eq; split.
  - intros [-> ->]; reflexivity.
  - intros H; inversion H; auto.
Qed.

Lemma pull_from_closed_none (inst : AStar) (p : Position) :
  pull_from_closed_by_position inst p = None <-> ~ in_closed inst p.
Proof.
  unfold pull_from_closed_by_position, in_closed; split.
  - intros H Hin. apply in_map_iff in Hin as [n [Hn Hin]].
    eapply find_none in H; [|exact Hin].
    rewrite <- Hn in H. unfold pos_eqb in H. rewrite !Nat.eqb_refl in H. discriminate.
  - intros H. destruct (find _ _) as [n|] eqn:E; [|reflexivity].
    exfalso. apply H. apply find_some in E as [Hin Hp].
    apply pos_eqb_eq in Hp. rewrite <- Hp. apply in_map; exact Hin.
Qed.

Lemma in_fresh_paths (inst : AStar) (paths : list Position) (p : Position) :
  In p (fresh_paths inst paths) <-> In p paths /\ ~ in_closed inst p.
Proof.
  unfold fresh_paths. rewrite filter_In, <- pull_from_closed_none.
  destruct (pull_from_closed_by_position inst p); intuition discriminate.
Qed.

Lemma set_que_set_que (inst : AStar) (q q' : list Node) :
  set_que (set_que inst q) q' = set_que inst q'.
Proof. reflexivity. Qed.

Lemma target_is_reached_set_que (inst : AStar) (q : list Node) (n : Node) :
  target_is_reached (set_que inst q) n = target_is_reached inst n.
Proof. reflexivity. Qed.

Lemma pull_set_que (inst : AStar) (q : list Node) (p : Position) :
  pull_from_closed_by_position (set_que inst q) p = pull_from_closed_by_position inst p.
Proof. reflexivity. Qed.

(** The [for] loop either finishes, exactly when the popped node meets the
    target and some generated position is not closed, or appends one child
    per such position. *)
Lemma expand_paths_spec (g : PathGenerator) (inst : AStar) (top : Node)
    (paths : list Position) :
  expand_paths g inst top paths =
  if target_is_reached inst top && negb (length (fresh_paths inst paths) =? 0)
  then Finished
  else NOk (set_que inst (que inst ++ map (child g inst top) (fresh_paths inst paths))).
Proof.
  revert inst; induction paths as [|p ps IH]; intros inst; simpl.
  - rewrite andb_false_r, app_nil_r. destruct inst; reflexivity.
  - unfold fresh_paths at 1; simpl; fold (fresh_paths inst ps).
    destruct (pull_from_closed_by_position inst p) eqn:E.
    + apply IH.
    + unfold create_new_node. simpl.
      destruct (target_is_reached inst top) eqn:T; simpl; [reflexivity|].
      rewrite IH, target_is_reached_set_que, T. simpl.
      unfold fresh_paths; simpl.
      f_equal. unfold set_que; simpl. rewrite <- app_assoc. reflexivity.
Qed.

Definition hc_le (a b : Node) : Prop := heuristic_cost a <= heuristic_cost b.

Lemma node_cmp_Gt (a b : Node) :
  node_cmp a b = Gt <-> heuristic_cost b < heuristic_cost a.
Proof. unfold node_cmp. rewrite Nat.compare_gt_iff. reflexivity. Qed.

Lemma insert_node_perm (x : Node) (l : list Node) :
  Permutation (x :: l) (insert_node x l).
Proof.
  induction l as [|y r IH]; simpl; [reflexivity|].
  destruct (node_cmp x y); try reflexivity.
  rewrite perm_swap. constructor. exact IH.
Qed.

Lemma sort_nodes_perm (l : list Node) : Permutation l (sort_nodes l).
Proof.
  induction l as [|x r IH]; simpl; [reflexivity|].
  rewrite <- insert_node_perm. constructor. exact IH.
Qed.

Lemma insert_node_sorted (x : Node) (l : list Node) :
  Sorted hc_le l -> Sorted hc_le (insert_node x l).
Proof.
  induction 1 as [|y r Hr IH Hhd]; simpl.
  - repeat constructor.
  - destruct (node_cmp x y) eqn:E.
    + constructor; [constructor; assumption|].
      constructor. unfold hc_le, node_cmp in *.
      apply Nat.compare_eq_iff in E; lia.
    + constructor; [constructor; assumption|].
      constructor. unfold hc_le, node_cmp in *.
      apply Nat.compare_lt_iff in E; lia.
    + apply node_cmp_Gt in E. constructor; [exact IH|].
      destruct r as [|z r']; simpl.
      * constructor. unfold hc_le; lia.
      * inversion Hhd; subst.
        destruct (node_cmp x z); constructor; unfold hc_le in *; lia.
Qed.

Lemma sort_nodes_sorted (l : list Node) : Sorted hc_le (sort_nodes l).
Proof.
  induction l as [|x r IH]; simpl; [constructor|].
  apply insert_node_sorted; exact IH.
Qed.

(** The node [sort] puts first has the least [heuristic_cost] of the queue. *)
Lemma sort_nodes_head (l : list Node) (top : Node) (rest : list Node) :
  sort_nodes l = top :: rest ->
  forall m, In m l -> heuristic_cost top <= heuristic_cost m.
Proof.
  intros E m Hm.
  pose proof (sort_nodes_sorted l) as S. rewrite E in S.
  apply Sorted_StronglySorted in S; [|intros a b c; unfold hc_le; lia].
  apply (Permutation_in m (sort_nodes_perm l)) in Hm. rewrite E in Hm.
  destruct Hm as [<-|Hm]; [lia|].
  inversion S as [|a b Hs Hf]; subst. rewrite Forall_forall in Hf. apply Hf, Hm.
Qed.

Lemma sort_nodes_nil (l : list Node) : sort_nodes l = [] -> l = [].
Proof.
  intros E. pose proof (sort_nodes_perm l) as P. rewrite E in P.
  apply Permutation_nil; symmetry; exact P.
Qed.

(** One loop iteration in closed form. *)
Lemma step_spec (g : PathGenerator) (inst : AStar) (top : Node) (rest : list Node) :
  sort_nodes (que inst) = top :: rest ->
  step g inst =
  if target_is_reached inst top
     && negb (length (fresh_paths inst (generate_paths g (position top))) =? 0)
  then Return (Some (reconstruct_path top))
  else Continue (push_closed
                   (set_que inst (rest ++ map (child g inst top)
                                    (fresh_paths inst (generate_paths g (position top)))))
                   top).
Proof.
  intros E. unfold step. rewrite E.
  destruct (que inst) as [|q0 qs] eqn:Q; [discriminate|].
  destruct (generate_paths g (position top)) as [|p ps] eqn:G.
  - simpl. rewrite andb_false_r, app_nil_r. reflexivity.
  - rewrite (expand_paths_spec g (set_que inst rest) top (p :: ps)).
    change (target_is_reached (set_que inst rest) top) with (target_is_reached inst top).
    change (fresh_paths (set_que inst rest)) with (fresh_paths inst).
    destruct (target_is_reached inst top
              && negb (length (fresh_paths inst (p :: ps)) =? 0)); reflexivity.
Qed.

Lemma target_is_reached_satisfies (inst : AStar) (n : Node) :
  target_is_reached inst n = satisfies (target inst) (position n).
Proof. reflexivity. Qed.

Lemma step_return_some (g : PathGenerator) (inst : AStar) (r : list Position) :
  step g inst = Return (Some r) ->
  exists top rest,
    sort_nodes (que inst) = top :: rest /\
    target_is_reached inst top = true /\
    fresh_paths inst (generate_paths g (position top)) <> [] /\
    r = reconstruct_path top.
Proof.
  intros H. destruct (sort_nodes (que inst)) as [|top rest] eqn:E.
  - apply sort_nodes_nil in E. unfold step in H. rewrite E in H. discriminate.
  - exists top, rest. rewrite (step_spec g inst top rest E) in H.
    destruct (target_is_reached inst top) eqn:T; simpl in H; [|discriminate].
    destruct (fresh_paths inst (generate_paths g (position top))) as [|p ps];
      simpl in H; [discriminate|].
    inversion H; subst. repeat split; try reflexivity. discriminate.
Qed.

Lemma step_continue (g : PathGenerator) (inst inst' : AStar) :
  step g inst = Continue inst' ->
  exists top rest,
    sort_nodes (que inst) = top :: rest /\
    negb (target_is_reached inst top
          && negb (length (fresh_paths inst (generate_paths g (position top))) =? 0))
      = true /\
    inst' = push_closed
              (set_que inst (rest ++ map (child g inst top)
                               (fresh_paths inst (generate_paths g (position top)))))
              top.
Proof.
  intros H. destruct (sort_nodes (que inst)) as [|top rest] eqn:E.
  - apply sort_nodes_nil in E. unfold step in H. rewrite E in H. discriminate.
  - exists top, rest. rewrite (step_spec g inst top rest E) in H.
    destruct (target_is_reached inst top && _) eqn:B; [discriminate|].
    inversion H; subst. auto.
Qed.

Lemma run_loop_return (fuel : nat) (g : PathGenerator) (inst s : AStar)
    (r : option (list Position)) :
  run_loop fuel g inst = Some (s, r) -> step g s = Return r.
Proof.
  revert inst; induction fuel as [|f IH]; intros inst H; simpl in H; [discriminate|].
  destruct (step g inst) eqn:E.
  - inversion H; subst. exact E.
  - exact (IH _ H).
Qed.

(** Transporting a state invariant along the loop. *)
Lemma run_loop_inv (P : AStar -> Prop) (fuel : nat) (g : PathGenerator)
    (inst s : AStar) (r : option (list Position)) :
  (forall i i', P i -> step g i = Continue i' -> P i') ->
  P inst -> run_loop fuel g inst = Some (s, r) -> P s /\ step g s = Return r.
Proof.
  intros Hstep. revert inst; induction fuel as [|f IH]; intros inst Hi H;
    simpl in H; [discriminate|].
  destruct (step g inst) eqn:E.
  - inversion H; subst. auto.
  - exact (IH _ (Hstep _ _ Hi E) H).
Qed.

Lemma step_target (g : PathGenerator) (inst inst' : AStar) :
  step g inst = Continue inst' -> target inst' = target inst.
Proof.
  intros H. apply step_continue in H as (top & rest & _ & _ & ->). reflexivity.
Qed.

Lemma satisfies_spec (t : Target) (p : Position) :
  satisfies t p = true <->
  (forall r, fst t = Some r -> r = fst p) /\ (forall c, snd t = Some c -> c = snd p).
Proof.
  destruct t as [t0 t1], p as [p0 p1].
  unfold satisfies, target_is_reached; simpl.
  assert (A : forall (o : option nat) (x : nat),
             match o with Some r => negb (r =? x) | None => false end = false <->
             (forall r, o = Some r -> r = x)).
  { intros [r|] x; simpl; split.
    - intros H r' E. inversion E; subst. apply negb_false_iff, Nat.eqb_eq in H. exact H.
    - intros H. rewrite (H r eq_refl), Nat.eqb_refl. reflexivity.
    - intros _ r' E; discriminate.
    - intros _; reflexivity. }
  rewrite <- (A t0 p0), <- (A t1 p1).
  destruct (match t0 with Some r => negb (r =? p0) | None => false end),
           (match t1 with Some r => negb (r =? p1) | None => false end);
    intuition discriminate.
Qed.

Lemma fresh_paths_no_closed (inst : AStar) (l : list Position) :
  closed_nodes inst = [] -> fresh_paths inst l = l.
Proof.
  intros H. unfold fresh_paths, pull_from_closed_by_position. rewrite H. simpl.
  induction l as [|x r IH]; simpl; [reflexivity|]. rewrite IH. reflexivity.
Qed.

Lemma fresh_paths_nil (inst : AStar) (l : list Position) :
  (forall p, In p l -> in_closed inst p) -> fresh_paths inst l = [].
Proof.
  intros H. destruct (fresh_paths inst l) as [|p ps] eqn:E; [reflexivity|].
  assert (Hp : In p (fresh_paths inst l)) by (rewrite E; left; reflexivity).
  apply in_fresh_paths in Hp as [Hp Hc]. exfalso. exact (Hc (H p Hp)).
Qed.

Lemma fresh_paths_cons (inst : AStar) (l : list Position) :
  fresh_paths inst l <> [] <-> exists p, In p l /\ ~ in_closed inst p.
Proof.
  split.
  - intros H. destruct (fresh_paths inst l) as [|p ps] eqn:E; [congruence|].
    exists p. apply in_fresh_paths. rewrite E. left; reflexivity.
  - intros [p Hp] E. apply in_fresh_paths in Hp. rewrite E in Hp. exact Hp.
Qed.

Lemma length_eqb_0 {A : Type} (l : list A) : (length l =? 0) = true <-> l = [].
Proof. destruct l; simpl; split; congruence. Qed.

Lemma reconstruct_path_cons (n : Node) :
  exists tl, reconstruct_path n = position n :: tl.
Proof. destruct n as [p [q|] c h]; simpl; eexists; reflexivity. Qed.

Lemma node_ok_path (g : PathGenerator) (start : Position) :
  forall n, node_ok g start n ->
  chain_ok g (reconstruct_path n) /\
  (exists pre, reconstruct_path n = pre ++ [start]) /\
  length (reconstruct_path n) = S (node_depth n) /\
  path_cost g (reconstruct_path n) = cost n.
Proof.
  fix IH 1. intros [pos [p|] c h] Hn; simpl in Hn |- *.
  - destruct Hn as (Hin & Hc & Hp).
    destruct (IH p Hp) as (Ch & [pre Pre] & L & Co).
    destruct (reconstruct_path_cons p) as [tl Tl].
    rewrite Tl in *. simpl in *.
    split; [split; [exact Hin|exact Ch]|].
    split; [exists (pos :: pre); rewrite Pre; reflexivity|].
    split; [rewrite L; reflexivity|]. lia.
  - destruct Hn as [-> ->]. repeat split; [exists []; reflexivity].
Qed.

Lemma step_node_ok (g : PathGenerator) (start : Position) (inst inst' : AStar) :
  (forall m, In m (que inst) -> node_ok g start m) ->
  step g inst = Continue inst' ->
  forall m, In m (que inst') -> node_ok g start m.
Proof.
  intros Hi H. apply step_continue in H as (top & rest & E & _ & ->).
  assert (Hsort : forall m, In m (top :: rest) -> In m (que inst)).
  { intros m Hm. rewrite <- E in Hm.
    apply (Permutation_in m (Permutation_sym (sort_nodes_perm _)) Hm). }
  intros m Hm. simpl in Hm. apply in_app_or in Hm as [Hm|Hm].
  - apply Hi, Hsort. right; exact Hm.
  - apply in_map_iff in Hm as [p [<- Hp]].
    apply in_fresh_paths in Hp as [Hp _].
    simpl. split; [exact Hp|]. split; [reflexivity|].
    apply Hi, Hsort. left; reflexivity.
Qed.

Lemma existsb_pos_eqb (x : Position) (Q : list Position) :
  existsb (pos_eqb x) Q = true <-> In x Q.
Proof.
  rewrite existsb_exists. split.
  - intros [y [Hy E]]. apply pos_eqb_eq in E. subst; exact Hy.
  - intros H. exists x. split; [exact H|]. apply pos_eqb_eq; reflexivity.
Qed.

Lemma filter_length_mono (A : Type) (f h : A -> bool) (l : list A) :
  (forall x, In x l -> f x = true -> h x = true) ->
  length (filter f l) <= length (filter h l).
Proof.
  induction l as [|x r IH]; intros H; simpl; [lia|].
  assert (IH' : length (filter f r) <= length (filter h r))
    by (apply IH; intros y Hy; apply H; right; exact Hy).
  destruct (f x) eqn:Ef.
  - rewrite (H x (or_introl eq_refl) Ef). simpl; lia.
  - destruct (h x); simpl; lia.
Qed.

Lemma filter_length_lt (A : Type) (f h : A -> bool) (l : list A) :
  (forall x, In x l -> f x = true -> h x = true) ->
  (exists x, In x l /\ f x = false /\ h x = true) ->
  length (filter f l) < length (filter h l).
Proof.
  induction l as [|x r IH]; intros H [y [Hy [Ef Eh]]]; [destruct Hy|].
  assert (H' : forall z, In z r -> f z = true -> h z = true)
    by (intros z Hz; apply H; right; exact Hz).
  simpl. destruct Hy as [<-|Hy].
  - rewrite Ef, Eh. simpl. pose proof (filter_length_mono A f h r H'). lia.
  - assert (L : length (filter f r) < length (filter h r))
      by (apply IH; [exact H'|exists y; auto]).
    destruct (f x) eqn:Efx.
    + rewrite (H x (or_introl eq_refl) Efx). simpl; lia.
    + destruct (h x); simpl; lia.
Qed.

Lemma count_open_mono (R Q Q' : list Position) :
  (forall x, In x Q -> In x Q') -> count_open R Q' <= count_open R Q.
Proof.
  intros H. unfold count_open. apply filter_length_mono.
  intros x _ E. apply negb_true_iff in E. apply negb_true_iff.
  destruct (existsb (pos_eqb x) Q) eqn:E1; [|reflexivity].
  apply existsb_pos_eqb, H, existsb_pos_eqb in E1. congruence.
Qed.

Lemma count_open_cons_lt (R Q : list Position) (p : Position) :
  In p R -> ~ In p Q -> count_open R (p :: Q) < count_open R Q.
Proof.
  intros Hp HQ. unfold count_open. apply filter_length_lt.
  - intros x _ E. apply negb_true_iff in E. apply negb_true_iff.
    destruct (existsb (pos_eqb x) Q) eqn:E1; [|reflexivity].
    apply existsb_pos_eqb in E1.
    assert (E2 : existsb (pos_eqb x) (p :: Q) = true)
      by (apply existsb_pos_eqb; right; exact E1). congruence.
  - exists p. split; [exact Hp|]. split.
    + apply negb_false_iff, existsb_pos_eqb. left; reflexivity.
    + apply negb_true_iff. destruct (existsb (pos_eqb p) Q) eqn:E; [|reflexivity].
      apply existsb_pos_eqb in E. contradiction.
Qed.

Lemma in_list_max (l : list nat) (x : nat) : In x l -> x <= list_max l.
Proof.
  intros H. assert (M : list_max l <= list_max l) by lia.
  apply list_max_le in M. rewrite Forall_forall in M. apply M, H.
Qed.

Lemma filter_length (A : Type) (f : A -> bool) (l : list A) :
  length (filter f l) <= length l.
Proof. induction l as [|x r IH]; simpl; [lia|]. destruct (f x); simpl; lia. Qed.

(** * Claims *)

(** ** The [usize] run against the [nat] run *)

Lemma usize_add_fits (b : Build) (x y : nat) :
  fits_usize (x + y) -> usize_add b x y = Some (x + y).
Proof.
  intros H. unfold fits_usize in H. unfold usize_add.
  rewrite <- Nat2N.inj_add. apply N.ltb_lt in H. rewrite H. reflexivity.
Qed.

Lemma fits_usize_le (x y : nat) : x <= y -> fits_usize y -> fits_usize x.
Proof.
  unfold fits_usize. intros H1 H2. lia.
Qed.

Definition lift_step (r : LoopStep) : LoopStepU :=
  match r with
  | Return r => ReturnU r
  | Continue i => ContinueU i
  end.

Lemma expand_paths_u_spec (b : Build) (g : PathGenerator) (inst : AStar) (top : Node)
    (paths : list Position) :
  (forall p, In p (fresh_paths inst paths) -> target_is_reached inst top = false ->
     fits_usize (heuristic_cost (child g inst top p))) ->
  expand_paths_u b g inst top paths = Some (expand_paths g inst top paths).
Proof.
  revert inst; induction paths as [|p ps IH]; intros inst Hf; simpl; [reflexivity|].
  destruct (pull_from_closed_by_position inst p) eqn:P.
  - apply IH. intros q Hq. apply Hf. unfold fresh_paths; simpl. rewrite P. exact Hq.
  - assert (Hp : In p (fresh_paths inst (p :: ps)))
      by (unfold fresh_paths; simpl; rewrite P; left; reflexivity).
    unfold create_new_node_u, create_new_node.
    destruct (target_is_reached inst top) eqn:T; [reflexivity|].
    specialize (Hf p Hp eq_refl) as Hc. simpl in Hc.
    assert (Hc' : fits_usize (calculate_cost g (position top) p + cost top))
      by (apply (fits_usize_le _ _ (Nat.le_add_l _ _) Hc)).
    rewrite (usize_add_fits b _ _ Hc'), (usize_add_fits b _ _ Hc).
    apply IH. intros q Hq T'.
    change (fits_usize (heuristic_cost (child g inst top q))).
    apply Hf; [|reflexivity].
    unfold fresh_paths; simpl. rewrite P. right. exact Hq.
Qed.

(** An iteration adds in [usize] exactly as in [nat] when the nodes it
    leaves in the frontier fit. *)
Lemma step_u_spec (b : Build) (g : PathGenerator) (inst : AStar) :
  (forall inst', step g inst = Continue inst' ->
     forall m, In m (que inst') -> fits_usize (heuristic_cost m)) ->
  step_u b g inst = lift_step (step g inst).
Proof.
  intros Hf. unfold step_u.
  destruct (que inst) as [|q0 qs] eqn:Q; [unfold step; rewrite Q; reflexivity|].
  destruct (sort_nodes (q0 :: qs)) as [|top rest] eqn:E.
  - unfold step; rewrite Q, E; reflexivity.
  - assert (E' : sort_nodes (que inst) = top :: rest) by (rewrite Q; exact E).
    destruct (generate_paths g (position top)) as [|p ps] eqn:G.
    + unfold step; rewrite Q, E, G; reflexivity.
    + simpl negb. cbv iota beta.
      rewrite (expand_paths_u_spec b g (set_que inst rest) top (p :: ps)).
      * unfold step; rewrite Q, E, G. change (negb (length (p :: ps) =? 0)) with true.
        cbv iota beta. destruct (expand_paths g (set_que inst rest) top (p :: ps)); reflexivity.
      * intros x Hx T.
        change (target_is_reached (set_que inst rest) top) with (target_is_reached inst top) in T.
        pose proof (step_spec g inst top rest E') as S. rewrite T in S. cbn [andb] in S.
        apply (Hf _ S). simpl. apply in_or_app. right. apply in_map. rewrite G. exact Hx.
Qed.

Lemma iter_step_S (n : nat) (g : PathGenerator) (inst : AStar) :
  iter_step (S n) g inst =
  match step g inst with
  | Return r => Return r
  | Continue i => iter_step n g i
  end.
Proof.
  induction n as [|k IH].
  - simpl. destruct (step g inst); reflexivity.
  - change (iter_step (S (S k)) g inst) with
      (match iter_step (S k) g inst with Return r => Return r | Continue i => step g i end).
    rewrite IH. destruct (step g inst); reflexivity.
Qed.

(** Without overflow the [usize] run is the [nat] run, in both builds. *)
Lemma run_loop_u_spec (b : Build) (g : PathGenerator) (start : Position) (t : Target)
    (HO : no_overflow g start t) :
  forall fuel k inst, iter_step k g (init_state g start t) = Continue inst ->
  run_loop_u b fuel g inst =
  option_map (fun sr => (fst sr, Ret (snd sr))) (run_loop fuel g inst).
Proof.
  induction fuel as [|f IH]; intros k inst Hk; [reflexivity|].
  simpl. rewrite (step_u_spec b g inst).
  - destruct (step g inst) as [r|i] eqn:Es; [reflexivity|].
    apply (IH (S k)). simpl. rewrite Hk. exact Es.
  - intros i Es. apply (HO (S k)). simpl. rewrite Hk. exact Es.
Qed.

Lemma run_loop_u_nat (b : Build) (g : PathGenerator) (start : Position) (t : Target)
    (fuel : nat) (s : AStar) (r : option (list Position)) :
  no_overflow g start t ->
  run_loop_u b fuel g (init_state g start t) = Some (s, Ret r) ->
  run_loop fuel g (init_state g start t) = Some (s, r).
Proof.
  intros HO E. rewrite (run_loop_u_spec b g start t HO fuel 0 _ eq_refl) in E.
  destruct (run_loop fuel g (init_state g start t)) as [[s' r']|]; simpl in E;
    inversion E; reflexivity.
Qed.

Lemma check_no_overflow_sound (fuel : nat) (g : PathGenerator) :
  forall inst, check_no_overflow fuel g inst = true ->
  forall n s, iter_step n g inst = Continue s ->
  forall m, In m (que s) -> fits_usize (heuristic_cost m).
Proof.
  induction fuel as [|f IH]; intros inst C n s H m Hm; simpl in C; [discriminate|].
  apply andb_true_iff in C as [Q C].
  destruct n as [|n].
  - simpl in H. inversion H; subst.
    unfold que_fits in Q. rewrite forallb_forall in Q.
    apply N.ltb_lt. exact (Q m Hm).
  - rewrite iter_step_S in H.
    destruct (step g inst) as [r|i]; [discriminate|].
    exact (IH i C n s H m Hm).
Qed.

Lemma no_overflow_check (fuel : nat) (g : PathGenerator) (start : Position) (t : Target) :
  check_no_overflow fuel g (init_state g start t) = true -> no_overflow g start t.
Proof. intros C n s H. exact (check_no_overflow_sound fuel g _ C n s H). Qed.

(** C5: on the test's fixture (grid with the cell (2,2) blocked, step cost
    1, the fixture heuristic), from (0,0) to the exact target (3,3), [run]
    returns [[(3,3); (2,3); (1,2); (1,1); (0,0)]], of accumulated cost 4. *)
Theorem c5_fixture_path :
  run 100 map_fixture (0, 0) (Some 3, Some 3)
    = Some (Some [(3, 3); (2, 3); (1, 2); (1, 1); (0, 0)])
  /\ path_cost map_fixture [(3, 3); (2, 3); (1, 2); (1, 1); (0, 0)] = 4.
Proof. split; vm_compute; reflexivity. Qed.

(** C7: when the start meets the target and has at least one generated
    neighbour, the first iteration expands the start and returns [[start]]. *)
Theorem c7_start_at_target (g : PathGenerator) (start : Position) (t : Target)
    (Hs : satisfies t start = true) (Hg : generate_paths g start <> []) :
  run 1 g start t = Some (Some [start]).
Proof.
  unfold run; simpl.
  set (n0 := Node_new start (calculate_heuristic_cost g start t)).
  rewrite (step_spec g (init_state g start t) n0 [] eq_refl).
  rewrite fresh_paths_no_closed by reflexivity.
  change (target_is_reached (init_state g start t) n0) with (satisfies t start).
  rewrite Hs. simpl position.
  destruct (length (generate_paths g start) =? 0) eqn:E.
  - apply length_eqb_0 in E. contradiction.
  - reflexivity.
Qed.

Lemma c7_start_at_target_witness :
  satisfies (Some 0, Some 0) (0, 0) = true /\ generate_paths map_fixture (0, 0) <> []
  /\ run 1 map_fixture (0, 0) (Some 0, Some 0) = Some (Some [(0, 0)]).
Proof.
  assert (H1 : satisfies (Some 0, Some 0) (0, 0) = true) by reflexivity.
  assert (H2 : generate_paths map_fixture (0, 0) <> []) by (vm_compute; discriminate).
  split; [exact H1|split; [exact H2|]].
  exact (c7_start_at_target map_fixture (0, 0) (Some 0, Some 0) H1 H2).
Defined.

Lemma run_some (fuel : nat) (g : PathGenerator) (start : Position) (t : Target)
    (r : option (list Position)) :
  run fuel g start t = Some r ->
  exists s, run_loop fuel g (init_state g start t) = Some (s, r) /\ target s = t.
Proof.
  unfold run. destruct (run_loop fuel g (init_state g start t)) as [[s r']|] eqn:E;
    simpl; intros H; inversion H; subst.
  exists s. split; [reflexivity|].
  apply (run_loop_inv (fun i => target i = t) fuel g _ s r) in E as [E _];
    [exact E| |reflexivity].
  intros i i' Hi Hs. rewrite (step_target g i i' Hs). exact Hi.
Qed.

(** The returned path starts with the position of a popped node meeting
    the target. *)
Lemma run_some_path (fuel : nat) (g : PathGenerator) (start : Position) (t : Target)
    (path : list Position) :
  run fuel g start t = Some (Some path) ->
  exists s top, run_loop fuel g (init_state g start t) = Some (s, Some path) /\
    target s = t /\ step g s = Return (Some path) /\
    satisfies t (position top) = true /\ path = reconstruct_path top.
Proof.
  intros H. apply run_some in H as (s & E & Ht).
  pose proof (run_loop_return _ _ _ _ _ E) as R.
  pose proof R as R'.
  apply step_return_some in R' as (top & rest & _ & T & _ & ->).
  exists s, top. rewrite target_is_reached_satisfies, Ht in T. auto.
Qed.

(** C8: with the target [(Some 3, None)] every returned path ends (at its
    head) on row 3, whatever the column; a position meets a target exactly
    when every present coordinate of the target equals its own. *)
Theorem c8_row_target (g : PathGenerator) (start : Position) (fuel : nat)
    (path : list Position)
    (H : run fuel g start (Some 3, None) = Some (Some path)) :
  (exists c rest, path = (3, c) :: rest) /\
  (forall t p, satisfies t p = true <->
     (forall r, fst t = Some r -> r = fst p) /\ (forall c, snd t = Some c -> c = snd p)).
Proof.
  split; [|exact satisfies_spec].
  apply run_some_path in H as (s & top & _ & _ & _ & T & ->).
  apply satisfies_spec in T as [T _]. specialize (T 3 eq_refl).
  destruct top as [[r c] cf co hc]; simpl in *; subst.
  eexists; eexists; reflexivity.
Qed.

Lemma c8_row_target_witness :
  run 100 map_fixture (0, 0) (Some 3, None) = Some (Some [(3, 2); (2, 1); (1, 1); (0, 0)])
  /\ exists c rest, [(3, 2); (2, 1); (1, 1); (0, 0)] = (3, c) :: rest.
Proof.
  assert (H : run 100 map_fixture (0, 0) (Some 3, None)
              = Some (Some [(3, 2); (2, 1); (1, 1); (0, 0)])) by (vm_compute; reflexivity).
  split; [exact H|].
  exact (proj1 (c8_row_target map_fixture (0, 0) 100 _ H)).
Defined.

(** C9: on a non-empty frontier the iteration takes out the node that the
    stable sort puts first: it has the least [heuristic_cost] (total cost)
    of the frontier, the rest of the frontier stays, and the comparison of
    nodes looks at [heuristic_cost] only. *)
Theorem c9_pop_min (g : PathGenerator) (inst : AStar) (H : que inst <> []) :
  (forall a b, node_cmp a b = Nat.compare (heuristic_cost a) (heuristic_cost b)) /\
  exists top rest,
    sort_nodes (que inst) = top :: rest /\
    Permutation (que inst) (top :: rest) /\
    (forall m, In m (que inst) -> heuristic_cost top <= heuristic_cost m) /\
    (step g inst = Return (Some (reconstruct_path top)) \/
     exists inst' added, step g inst = Continue inst' /\
       que inst' = rest ++ added /\ closed_nodes inst' = closed_nodes inst ++ [top]).
Proof.
  split; [reflexivity|].
  destruct (sort_nodes (que inst)) as [|top rest] eqn:E.
  - apply sort_nodes_nil in E. contradiction.
  - exists top, rest. split; [reflexivity|]. split.
    { rewrite <- E. apply sort_nodes_perm. }
    split; [exact (sort_nodes_head _ _ _ E)|].
    rewrite (step_spec g inst top rest E).
    destruct (_ && _).
    + left; reflexivity.
    + right. eexists; eexists; split; [reflexivity|]. split; reflexivity.
Qed.

Lemma c9_pop_min_witness :
  que mixed_state <> [] /\
  exists rest, sort_nodes (que mixed_state) = mkNode (1, 1) None 0 2 :: rest /\
    (forall m, In m (que mixed_state) -> 2 <= heuristic_cost m) /\
    (exists inst', step map_fixture mixed_state = Continue inst' /\
       closed_nodes inst' = [mkNode (1, 1) None 0 2]).
Proof.
  assert (H : que mixed_state <> []) by (simpl; discriminate).
  split; [exact H|].
  destruct (c9_pop_min map_fixture mixed_state H)
    as [_ (top & rest & E & _ & Hmin & Hstep)].
  pose proof E as E'. vm_compute in E'. injection E' as Ht Hr. subst top.
  exists rest. split; [exact E|]. split; [exact Hmin|].
  destruct Hstep as [R|(inst' & added & S & _ & C)]; [vm_compute in R; discriminate R|].
  exists inst'. split; [exact S|]. rewrite C. reflexivity.
Defined.

(** C10: a popped node that meets the target but has no generated
    neighbour outside the closed set does not end the search: it is closed
    and the loop goes on with the rest of the frontier. *)
Theorem c10_target_popped_not_finished (g : PathGenerator) (inst : AStar)
    (top : Node) (rest : list Node)
    (E : sort_nodes (que inst) = top :: rest)
    (T : target_is_reached inst top = true)
    (C : forall p, In p (generate_paths g (position top)) -> in_closed inst p) :
  step g inst = Continue (push_closed (set_que inst rest) top).
Proof.
  rewrite (step_spec g inst top rest E), T, (fresh_paths_nil _ _ C).
  simpl. rewrite app_nil_r. reflexivity.
Qed.

Lemma c10_target_popped_not_finished_witness :
  step g_dead (init_state g_dead (0, 0) (Some 1, Some 1)) = Continue dead_state /\
  satisfies (Some 1, Some 1) (position dead_node) = true /\
  step g_dead dead_state = Continue (push_closed (set_que dead_state []) dead_node) /\
  run 10 g_dead (0, 0) (Some 1, Some 1) = Some None.
Proof.
  split; [vm_compute; reflexivity|].
  split; [reflexivity|].
  split; [|vm_compute; reflexivity].
  apply c10_target_popped_not_finished.
  - reflexivity.
  - reflexivity.
  - intros p Hp. vm_compute in Hp. destruct Hp.
Defined.

(** C2 as stated: a generated neighbour outside the closed set that meets
    the target ends the search with that neighbour put in front of the
    popped node's chain.  [g_dead] refutes it: [(1, 1)] is generated from
    the start, meets the target, but the first iteration continues and the
    run ends without a path. *)
Lemma c2_neighbor_check_counterexample :
  ~ (forall g inst top rest p,
       sort_nodes (que inst) = top :: rest ->
       In p (fresh_paths inst (generate_paths g (position top))) ->
       satisfies (target inst) p = true ->
       step g inst = Return (Some (p :: reconstruct_path top))).
Proof.
  intros H.
  specialize (H g_dead (init_state g_dead (0, 0) (Some 1, Some 1))
                (Node_new (0, 0) 0) [] (1, 1) eq_refl).
  assert (S : step g_dead (init_state g_dead (0, 0) (Some 1, Some 1)) = Continue dead_state)
    by (vm_compute; reflexivity).
  rewrite S in H. discriminate H; [vm_compute; left; reflexivity | reflexivity].
Qed.

(** C2, corrected: the target check is made on the popped node.  The
    iteration returns exactly when the popped node meets the target and one
    of its generated neighbours is not closed, and the path returned is the
    popped node's own chain (its position first). *)
Theorem c2_popped_node_checked (g : PathGenerator) (inst : AStar) (top : Node)
    (rest : list Node) (E : sort_nodes (que inst) = top :: rest) :
  (step g inst = Return (Some (reconstruct_path top)) <->
   satisfies (target inst) (position top) = true /\
   exists p, In p (generate_paths g (position top)) /\ ~ in_closed inst p) /\
  (forall r, step g inst = Return r -> r = Some (reconstruct_path top)).
Proof.
  rewrite <- target_is_reached_satisfies, <- fresh_paths_cons.
  rewrite (step_spec g inst top rest E).
  destruct (target_is_reached inst top);
  destruct (fresh_paths inst (generate_paths g (position top))) eqn:F; simpl;
    (split; [split; [intros H; try discriminate; split; congruence
                    |intros [H1 H2]; try discriminate; congruence]
            |intros r H; inversion H; reflexivity]).
Qed.

Lemma c2_popped_node_checked_witness :
  sort_nodes (que (init_state map_fixture (0, 0) (Some 0, Some 0)))
    = [Node_new (0, 0) 2] /\
  step map_fixture (init_state map_fixture (0, 0) (Some 0, Some 0))
    = Return (Some [(0, 0)]).
Proof.
  assert (E : sort_nodes (que (init_state map_fixture (0, 0) (Some 0, Some 0)))
              = Node_new (0, 0) 2 :: []) by (vm_compute; reflexivity).
  split; [exact E|].
  apply (proj2 (proj1 (c2_popped_node_checked map_fixture _ _ [] E))).
  split; [reflexivity|]. exists (1, 1). split.
  - vm_compute; auto.
  - intros H. destruct H.
Defined.

(** C3 as stated: no position is closed (nor expanded) twice.  On the
    fixture, the position (1, 0) is in the frontier twice (reached from
    (0, 0) and from (1, 1)); both entries are popped, expanded and closed. *)
Lemma c3_closed_twice_counterexample :
  ~ (forall g start t n inst,
       iter_step n g (init_state g start t) = Continue inst ->
       NoDup (map position (closed_nodes inst))).
Proof.
  intros H.
  specialize (H map_fixture (0, 0) (Some 3, Some 3) 5).
  destruct (iter_step 5 map_fixture (init_state map_fixture (0, 0) (Some 3, Some 3)))
    as [r|inst] eqn:E.
  - vm_compute in E. discriminate E.
  - specialize (H inst eq_refl).
    vm_compute in E. injection E as <-. simpl in H.
    inversion H as [|x l Hx Hl]; subst. inversion Hl as [|x' l' Hx' Hl']; subst.
    inversion Hl' as [|x'' l'' Hx'' Hl'']; subst.
    inversion Hl'' as [|y m Hy Hm]; subst.
    apply Hy. left; reflexivity.
Qed.

(** C3, corrected: a closed position never gets a new frontier node.  Each
    iteration that goes on pops the first node [top] of the sorted
    frontier, whether or not its position is already closed, calls
    [generate_paths] on its position, adds to the frontier one child of
    [top] for each generated position outside the closed set (and no other
    node), and appends [top] to the closed set.  So an entry made before its
    position was closed is still popped, expanded and closed again. *)
Theorem c3_closed_never_requeued (g : PathGenerator) (inst inst' : AStar)
    (H : step g inst = Continue inst') :
  exists top rest,
    sort_nodes (que inst) = top :: rest /\
    que inst' = rest ++ map (child g inst top)
                  (filter (fun p => negb (existsb (pos_eqb p) (map position (closed_nodes inst))))
                     (generate_paths g (position top))) /\
    closed_nodes inst' = closed_nodes inst ++ [top] /\
    forall n, In n (que inst') -> ~ In n rest ->
      comes_from n = Some top /\ ~ in_closed inst (position n).
Proof.
  apply step_continue in H as (top & rest & E & _ & ->).
  assert (F : fresh_paths inst (generate_paths g (position top)) =
              filter (fun p => negb (existsb (pos_eqb p) (map position (closed_nodes inst))))
                (generate_paths g (position top))).
  { unfold fresh_paths. apply filter_ext. intros p.
    destruct (pull_from_closed_by_position inst p) as [n|] eqn:P.
    - symmetry. apply negb_false_iff, existsb_pos_eqb.
      apply find_some in P as [Hn Hp]. apply pos_eqb_eq in Hp.
      apply in_map_iff. exists n. split; [exact Hp|exact Hn].
    - symmetry. apply negb_true_iff, not_true_iff_false. intros C.
      apply existsb_pos_eqb in C. exact (proj1 (pull_from_closed_none inst p) P C). }
  exists top, rest. split; [exact E|]. split; [simpl; rewrite F; reflexivity|].
  split; [reflexivity|].
  intros n Hn Hr. simpl in Hn. apply in_app_or in Hn as [Hn|Hn]; [contradiction|].
  apply in_map_iff in Hn as [p [<- Hp]].
  apply in_fresh_paths in Hp as [_ Hp]. split; [reflexivity|exact Hp].
Qed.

(** On the fixture, the fifth iteration pops the stale entry of (1, 0),
    whose position the fourth iteration closed, and expands it again. *)
Lemma c3_closed_never_requeued_witness :
  exists s s', iter_step 4 map_fixture (init_state map_fixture (0, 0) (Some 3, Some 3))
                 = Continue s /\
    step map_fixture s = Continue s' /\
    exists top rest, sort_nodes (que s) = top :: rest /\
      in_closed s (position top) /\
      que s' = rest ++ map (child map_fixture s top) [(2, 1); (2, 0)] /\
      map position (closed_nodes s') = [(0, 0); (1, 1); (0, 1); (1, 0); (1, 0)].
Proof.
  destruct (iter_step 4 map_fixture (init_state map_fixture (0, 0) (Some 3, Some 3)))
    as [r|s] eqn:E; [vm_compute in E; discriminate E|].
  destruct (step map_fixture s) as [r|s'] eqn:E'.
  - pose proof E as Es. vm_compute in Es. injection Es as <-. vm_compute in E'. discriminate E'.
  - exists s, s'. split; [reflexivity|]. split; [exact E'|].
    destruct (c3_closed_never_requeued _ _ _ E') as (top & rest & So & Q & C & _).
    pose proof E as Es. vm_compute in Es. injection Es as Hs. subst s.
    exists top, rest. split; [exact So|].
    vm_compute in So. injection So as Ht Hr. subst top rest.
    split; [vm_compute; auto 10|]. split.
    + rewrite Q. reflexivity.
    + rewrite C. reflexivity.
Defined.

(** C6: a returned path, read from its last element (the start) to its
    first, steps each time to a neighbour generated from the previous
    position; it is the chain of a node with [node_depth] steps, has one
    more element than that, and its [path_cost] is the node's cost. *)
Theorem c6_path_is_chain (fuel : nat) (g : PathGenerator) (start : Position)
    (t : Target) (path : list Position)
    (H : run fuel g start t = Some (Some path)) :
  exists n, path = reconstruct_path n /\
    chain_ok g path /\
    (exists pre, path = pre ++ [start]) /\
    length path = S (node_depth n) /\
    path_cost g path = cost n.
Proof.
  apply run_some in H as (s & E & _).
  apply (run_loop_inv (fun i => forall m, In m (que i) -> node_ok g start m))
    in E as [Hs R].
  - apply step_return_some in R as (top & rest & Es & _ & _ & ->).
    exists top. split; [reflexivity|].
    apply node_ok_path. apply Hs.
    apply (Permutation_in top (Permutation_sym (sort_nodes_perm _))).
    rewrite Es; left; reflexivity.
  - intros i i' Hi Hst. exact (step_node_ok g start i i' Hi Hst).
  - intros m [<-|[]]. simpl. auto.
Qed.

Lemma c6_path_is_chain_witness :
  run 100 map_fixture (0, 0) (Some 3, Some 3)
    = Some (Some [(3, 3); (2, 3); (1, 2); (1, 1); (0, 0)]) /\
  chain_ok map_fixture [(3, 3); (2, 3); (1, 2); (1, 1); (0, 0)].
Proof.
  assert (H : run 100 map_fixture (0, 0) (Some 3, Some 3)
              = Some (Some [(3, 3); (2, 3); (1, 2); (1, 1); (0, 0)]))
    by (vm_compute; reflexivity).
  split; [exact H|].
  destruct (c6_path_is_chain _ _ _ _ _ H) as (n & _ & C & _). exact C.
Defined.

(** ** Termination when no reachable position meets the target *)

Lemma reconstruct_path_ancestors (n : Node) :
  reconstruct_path n = position n :: ancestors n.
Proof. destruct n as [p [q|] c h]; reflexivity. Qed.

Lemma sort_nodes_in (l : list Node) (top : Node) (rest : list Node) :
  sort_nodes l = top :: rest -> forall m, In m (top :: rest) -> In m l.
Proof.
  intros E m Hm. rewrite <- E in Hm.
  exact (Permutation_in m (Permutation_sym (sort_nodes_perm l)) Hm).
Qed.

Lemma in_closed_push (inst : AStar) (q : list Node) (top : Node) (a : Position) :
  in_closed inst a \/ a = position top -> in_closed (push_closed (set_que inst q) top) a.
Proof.
  unfold in_closed; simpl. rewrite map_app, in_app_iff. simpl. intuition.
Qed.

Lemma potential_app (g : PathGenerator) (R : list Position) (l l' : list Node) :
  potential g R (l ++ l') = potential g R l + potential g R l'.
Proof. unfold potential. rewrite map_app, list_sum_app. reflexivity. Qed.

Lemma potential_perm (g : PathGenerator) (R : list Position) (l l' : list Node) :
  Permutation l l' -> potential g R l = potential g R l'.
Proof. intros P. unfold potential. apply Permutation_list_sum, Permutation_map, P. Qed.

Lemma potential_bound (g : PathGenerator) (R : list Position) (l : list Node) (w : nat) :
  (forall c, In c l -> weight R c < w) ->
  potential g R l <= length l * branching g R ^ (w - 1).
Proof.
  unfold potential.
  induction l as [|c l IH]; intros H; simpl; [lia|].
  assert (Hc : branching g R ^ weight R c <= branching g R ^ (w - 1)).
  { apply Nat.pow_le_mono_r; [unfold branching; lia|].
    specialize (H c (or_introl eq_refl)); lia. }
  assert (Hl : list_sum (map (fun m => branching g R ^ weight R m) l)
               <= length l * branching g R ^ (w - 1))
    by (apply IH; intros d Hd; apply H; right; exact Hd).
  lia.
Qed.

Section Termination.

Variables (g : PathGenerator) (start : Position) (t : Target) (R : list Position).
Hypothesis HR : forall p, reachable g start p -> In p R.

Lemma weight_child_lt (inst : AStar) (top : Node) (p : Position) :
  (forall a, In a (ancestors top) -> in_closed inst a) ->
  ~ in_closed inst p -> In p R ->
  weight R (child g inst top p) < weight R top.
Proof.
  intros Ha Hp HpR.
  assert (Np : ~ In p (ancestors top)) by (intros H; exact (Hp (Ha p H))).
  unfold weight. change (position (child g inst top p)) with p.
  change (ancestors (child g inst top p)) with (reconstruct_path top).
  rewrite reconstruct_path_ancestors.
  destruct (pos_eqb p (position top)) eqn:E.
  - apply pos_eqb_eq in E. rewrite <- E.
    rewrite (proj2 (existsb_pos_eqb p (p :: ancestors top)) (or_introl eq_refl)).
    destruct (existsb (pos_eqb p) (ancestors top)) eqn:E2;
      [apply existsb_pos_eqb in E2; contradiction|].
    assert (M : count_open R (p :: p :: ancestors top) <= count_open R (p :: ancestors top))
      by (apply count_open_mono; intros x Hx; right; exact Hx).
    lia.
  - assert (N : ~ In p (position top :: ancestors top)).
    { intros [H|H]; [subst; rewrite (proj2 (pos_eqb_eq _ _) eq_refl) in E; discriminate
                    |exact (Np H)]. }
    pose proof (count_open_cons_lt R _ p HpR N) as L.
    destruct (existsb _ (position top :: ancestors top)),
             (existsb (pos_eqb (position top)) (ancestors top)); lia.
Qed.

Lemma term_inv_step (s s' : AStar) :
  term_inv g start t s -> step g s = Continue s' ->
  term_inv g start t s' /\ potential g R (que s') < potential g R (que s).
Proof.
  intros [Ht Hq] H. apply step_continue in H as (top & rest & E & _ & ->).
  pose proof (sort_nodes_in _ _ _ E) as Hin.
  destruct (Hq top (Hin top (or_introl eq_refl))) as [Rtop Atop].
  assert (Ptop : reachable g start (position top))
    by (apply Rtop; rewrite reconstruct_path_ancestors; left; reflexivity).
  set (fr := fresh_paths s (generate_paths g (position top))).
  assert (Hfr : forall p, In p fr ->
                reachable g start p /\ ~ in_closed s p).
  { intros p Hp. apply in_fresh_paths in Hp as [Hp Hc].
    split; [exact (reach_step g start _ _ Ptop Hp)|exact Hc]. }
  split.
  - split; [exact Ht|]. intros m Hm. simpl in Hm. apply in_app_or in Hm as [Hm|Hm].
    + destruct (Hq m (Hin m (or_intror Hm))) as [Rm Am].
      split; [exact Rm|]. intros a Ha. apply in_closed_push. left; exact (Am a Ha).
    + apply in_map_iff in Hm as [p [<- Hp]]. destruct (Hfr p Hp) as [Rp _].
      split.
      * intros q [<-|Hq']; [exact Rp|exact (Rtop q Hq')].
      * change (ancestors (child g s top p)) with (reconstruct_path top).
        rewrite reconstruct_path_ancestors. intros a [<-|Ha]; apply in_closed_push.
        -- right; reflexivity.
        -- left; exact (Atop a Ha).
  - simpl. rewrite potential_app.
    rewrite (potential_perm g R (que s) (top :: rest))
      by (rewrite <- E; apply sort_nodes_perm).
    unfold potential at 3; simpl; fold (potential g R rest).
    set (children := map (child g s top) fr).
    assert (Hw : forall c, In c children -> weight R c < weight R top).
    { intros c Hc. apply in_map_iff in Hc as [p [<- Hp]].
      destruct (Hfr p Hp) as [Rp Cp]. apply weight_child_lt; auto. }
    pose proof (potential_bound g R children (weight R top) Hw) as Pb.
    assert (Hk : length children < branching g R).
    { unfold children. rewrite length_map. unfold fr, fresh_paths.
      eapply Nat.le_lt_trans; [apply filter_length|].
      unfold branching. apply Nat.lt_succ_r, in_list_max.
      apply in_map_iff. exists (position top). split; [reflexivity|exact (HR _ Ptop)]. }
    destruct children as [|c cs] eqn:Ec.
    + unfold potential at 2. simpl.
      assert (0 < branching g R ^ weight R top)
        by (apply Nat.neq_0_lt_0, Nat.pow_nonzero; unfold branching; lia).
      lia.
    + assert (W : 0 < weight R top) by (specialize (Hw c (or_introl eq_refl)); lia).
      destruct (weight R top) as [|w] eqn:Ew; [lia|].
      rewrite Nat.pow_succ_r'. replace (S w - 1) with w in Pb by lia.
      assert (0 < branching g R ^ w)
        by (apply Nat.neq_0_lt_0, Nat.pow_nonzero; unfold branching; lia).
      nia.
Qed.

Hypothesis HT : forall p, reachable g start p -> satisfies t p = false.

Lemma term_run_loop (k : nat) (s : AStar) :
  term_inv g start t s -> potential g R (que s) < k ->
  exists s', run_loop k g s = Some (s', None).
Proof.
  revert s; induction k as [|k IH]; intros s Hi Hk; [lia|].
  simpl. destruct (step g s) as [r|s'] eqn:E.
  - destruct r as [path|]; [|exists s; reflexivity].
    exfalso. apply step_return_some in E as (top & rest & Es & T & _ & _).
    destruct Hi as [Ht Hq].
    destruct (Hq top (sort_nodes_in _ _ _ Es top (or_introl eq_refl))) as [Rt _].
    rewrite target_is_reached_satisfies, Ht, HT in T; [discriminate|].
    apply Rt. rewrite reconstruct_path_ancestors; left; reflexivity.
  - destruct (term_inv_step s s' Hi E) as [Hi' Hd].
    apply IH; [exact Hi'|lia].
Qed.

End Termination.

Lemma usize_max_N : N.of_nat usize_max = (usize_modulus - 1)%N.
Proof. unfold usize_max. apply N2Nat.id. Qed.

Lemma usize_add_max_debug (y : nat) : y <> 0 -> usize_add Debug usize_max y = None.
Proof.
  intros H. unfold usize_add. rewrite usize_max_N.
  assert (L : (usize_modulus - 1 + N.of_nat y <? usize_modulus)%N = false).
  { apply N.ltb_ge. change usize_modulus with 18446744073709551616%N. lia. }
  rewrite L. reflexivity.
Qed.

(** The first iteration from a start that does not meet the target and has
    one neighbour panics in a debug build when the neighbour's total cost
    overflows. *)
Lemma step_u_panic_start (g : PathGenerator) (start p : Position) (t : Target) :
  satisfies t start = false ->
  generate_paths g start = [p] ->
  fits_usize (calculate_cost g start p) ->
  usize_add Debug (calculate_heuristic_cost g p t) (calculate_cost g start p) = None ->
  step_u Debug g (init_state g start t) = PanicU.
Proof.
  intros Hs G Hf Ho. unfold step_u, init_state. cbn -[usize_add expand_paths_u].
  rewrite G. cbn -[usize_add].
  unfold create_new_node_u. change (target_is_reached _ _) with (satisfies t start).
  rewrite Hs. cbn -[usize_add].
  rewrite (usize_add_fits Debug _ _ ltac:(rewrite Nat.add_0_r; exact Hf)).
  rewrite Nat.add_0_r, Ho. reflexivity.
Qed.

Lemma g_big_reachable (p : Position) :
  reachable g_big (0, 0) p -> In p [(0, 0); (1, 1)].
Proof.
  induction 1 as [|p q Hp IH Hq].
  - left; reflexivity.
  - destruct IH as [<-|[<-|[]]]; simpl in Hq.
    + destruct Hq as [<-|[]]. right; left; reflexivity.
    + destruct Hq.
Qed.

Lemma run_loop_u_S (b : Build) (f : nat) (g : PathGenerator) (inst : AStar) :
  run_loop_u b (S f) g inst =
  match step_u b g inst with
  | ReturnU r => Some (inst, Ret r)
  | PanicU => Some (inst, Panic)
  | ContinueU inst' => run_loop_u b f g inst'
  end.
Proof. reflexivity. Qed.

Lemma g_big_panics (fuel : nat) :
  run_u Debug (S fuel) g_big (0, 0) (Some 9, Some 9) = Some Panic.
Proof.
  unfold run_u. rewrite run_loop_u_S.
  rewrite (step_u_panic_start g_big (0, 0) (1, 1) (Some 9, Some 9)).
  - reflexivity.
  - reflexivity.
  - reflexivity.
  - change (fits_usize 1). unfold fits_usize. vm_compute. reflexivity.
  - change (usize_add Debug usize_max 1 = None). apply usize_add_max_debug. discriminate.
Qed.

(** C4 as stated: finitely many reachable positions and none meeting the
    target make [run] return [None].  With [usize] additions, [g_big] has
    two reachable positions, neither meeting the target (9, 9), but the
    total cost of the node of (1, 1) is [usize::MAX + 1]: a debug build
    panics on the first iteration and never returns [None]. *)
Lemma c4_overflow_counterexample :
  ~ (forall b g start t R,
       (forall p, reachable g start p -> In p R) ->
       (forall p, reachable g start p -> satisfies t p = false) ->
       exists fuel, run_u b fuel g start t = Some (Ret None)).
Proof.
  intros H.
  destruct (H Debug g_big (0, 0) (Some 9, Some 9) [(0, 0); (1, 1)]) as [fuel F].
  - exact g_big_reachable.
  - intros p Hp. apply g_big_reachable in Hp as [<-|[<-|[]]]; reflexivity.
  - destruct fuel as [|f]; [discriminate F|].
    rewrite g_big_panics in F. discriminate F.
Qed.

(** C4, corrected: when the positions reachable from [start] are finitely
    many (all in a list [R]), none of them meets the target and no [usize]
    addition of the run overflows, [run] terminates, the frontier having
    emptied, and returns the absence value [None], in a debug build as in a
    release build. *)
Theorem c4_no_target_terminates (b : Build) (g : PathGenerator) (start : Position)
    (t : Target) (R : list Position)
    (HR : forall p, reachable g start p -> In p R)
    (HT : forall p, reachable g start p -> satisfies t p = false)
    (HO : no_overflow g start t) :
  exists fuel, run_u b fuel g start t = Some (Ret None).
Proof.
  destruct (term_run_loop g start t R HR HT
              (S (potential g R (que (init_state g start t))))
              (init_state g start t)) as [s' E].
  - split; [reflexivity|]. intros m [<-|[]]. split.
    + intros p [<-|[]]. apply reach_start.
    + intros a [].
  - lia.
  - exists (S (potential g R (que (init_state g start t)))).
    unfold run_u. rewrite (run_loop_u_spec b g start t HO _ 0 _ eq_refl), E.
    reflexivity.
Qed.

Lemma g_dead_reachable (p : Position) :
  reachable g_dead (0, 0) p -> In p [(0, 0); (1, 1)].
Proof.
  induction 1 as [|p q Hp IH Hq].
  - left; reflexivity.
  - destruct IH as [<-|[<-|[]]]; vm_compute in Hq.
    + destruct Hq as [<-|[]]. right; left; reflexivity.
    + destruct Hq.
Qed.

Lemma c4_no_target_terminates_witness :
  exists fuel, run_u Debug fuel g_dead (0, 0) (Some 5, Some 5) = Some (Ret None).
Proof.
  apply (c4_no_target_terminates Debug g_dead (0, 0) (Some 5, Some 5) [(0, 0); (1, 1)]).
  - exact g_dead_reachable.
  - intros p Hp. apply g_dead_reachable in Hp as [<-|[<-|[]]]; reflexivity.
  - apply (no_overflow_check 5). vm_compute. reflexivity.
Defined.

(** ** Optimality *)

(** Along a chain, [d + cost so far] does not decrease when [d] drops by
    at most the step cost on each generated edge. *)
Lemma chain_consistent (g : PathGenerator) (d : Position -> nat)
    (Hd : forall p q, In q (generate_paths g p) -> d p <= calculate_cost g p q + d q) :
  forall pre Q dflt, chain_ok g (pre ++ Q) -> Q <> [] ->
  d (hd dflt Q) + path_cost g Q <= d (hd dflt (pre ++ Q)) + path_cost g (pre ++ Q).
Proof.
  induction pre as [|x pre IH]; intros Q dflt Hc HQ; simpl in Hc |- *; [lia|].
  destruct (pre ++ Q) as [|y r] eqn:E.
  - apply app_eq_nil in E as [_ E]. contradiction.
  - simpl in Hc. destruct Hc as [Hx Hc].
    specialize (IH Q dflt). rewrite E in IH. specialize (IH Hc HQ).
    specialize (Hd y x Hx). simpl in IH |- *. lia.
Qed.

Lemma walk_from_single (g : PathGenerator) (start x : Position) :
  walk_from g start [x] -> x = start.
Proof.
  intros [_ [pre E]].
  destruct pre as [|a [|b pre]]; simpl in E; inversion E; auto.
Qed.

Lemma walk_from_tail (g : PathGenerator) (start x y : Position) (r : list Position) :
  walk_from g start (x :: y :: r) ->
  walk_from g start (y :: r) /\ In x (generate_paths g y).
Proof.
  intros [[Hx Hc] [pre E]]. split; [split; [exact Hc|]|exact Hx].
  destruct pre as [|a pre]; simpl in E.
  - inversion E.
  - inversion E as [[H0 H1]]. exists pre; exact H1.
Qed.

(** Walks with a given target end are admissibly bounded by a consistent
    function vanishing on target positions. *)
Lemma consistent_admissible (g : PathGenerator) (t : Target) (d : Position -> nat)
    (Hd : forall p q, In q (generate_paths g p) -> d p <= calculate_cost g p q + d q)
    (Hz : forall p, satisfies t p = true -> d p = 0) :
  forall p P, walk_from g p P -> satisfies t (hd p P) = true -> d p <= path_cost g P.
Proof.
  intros p P [Hc [pre ->]] Ht.
  pose proof (chain_consistent g d Hd pre [p] p Hc ltac:(discriminate)) as L.
  simpl in L. rewrite (Hz _ Ht) in L. lia.
Qed.

Lemma in_closed_dec (inst : AStar) (p : Position) :
  {in_closed inst p} + {~ in_closed inst p}.
Proof.
  unfold in_closed.
  destruct (existsb (pos_eqb p) (map position (closed_nodes inst))) eqn:E.
  - left. apply existsb_pos_eqb, E.
  - right. intros H. apply existsb_pos_eqb in H. congruence.
Qed.

Section Optimality.

Variables (g : PathGenerator) (start : Position) (t : Target).

(** From the invariant: each walk from [start] to a position outside the
    closed set has a frontier node for one of its positions whose cost is at
    most the cost of the walk up to that position. *)
Lemma opt_inv_frontier (s : AStar) :
  opt_inv g start t s ->
  forall P, walk_from g start P -> ~ in_closed s (hd start P) ->
  exists n pre Q, In n (que s) /\ P = pre ++ Q /\ Q <> [] /\
    position n = hd start Q /\ cost n <= path_cost g Q.
Proof.
  intros (_ & _ & K0 & K1).
  induction P as [|x r IH]; intros Hw Hn.
  - destruct Hw as [_ [pre E]]. destruct pre; discriminate.
  - destruct r as [|y r'].
    + apply walk_from_single in Hw. subst x.
      destruct (K0 Hn) as (n & Hq & Hp & Hc).
      exists n, [], [start]. repeat split; auto; [discriminate|simpl; lia].
    + destruct (walk_from_tail g start x y r' Hw) as [Hw' Hx].
      destruct (in_closed_dec s y) as [Cy|Cy].
      * destruct (K1 y Cy) as (m & _ & Hm & Opt & Nb).
        destruct (Nb x Hx) as [Cx|(n & Hq & Hp & Hc)]; [contradiction|].
        exists n, [], (x :: y :: r'). repeat split; auto; [discriminate|].
        specialize (Opt (y :: r') Hw' eq_refl).
        change (path_cost g (x :: y :: r')) with (calculate_cost g y x + path_cost g (y :: r')).
        lia.
      * destruct (IH Hw' Cy) as (n & pre & Q & Hq & E & HQ & Hp & Hc).
        exists n, (x :: pre), Q. rewrite E. repeat split; auto.
Qed.

Hypothesis HC : consistent g t.

Lemma opt_inv_bound (s : AStar) :
  opt_inv g start t s ->
  forall P, walk_from g start P -> ~ in_closed s (hd start P) ->
  exists n, In n (que s) /\
    heuristic_cost n <= path_cost g P + calculate_heuristic_cost g (hd start P) t.
Proof.
  intros Hi P Hw Hn.
  destruct (opt_inv_frontier s Hi P Hw Hn) as (n & pre & Q & Hq & E & HQ & Hp & Hc).
  exists n. split; [exact Hq|].
  destruct Hi as (_ & Hnodes & _). destruct (Hnodes n Hq) as [_ Hh].
  subst P. destruct Hw as [Hch _].
  pose proof (chain_consistent g (fun p => calculate_heuristic_cost g p t) HC
                pre Q start Hch HQ) as L.
  simpl in L. rewrite Hh, Hp. lia.
Qed.

Lemma in_closed_push_inv (inst : AStar) (q : list Node) (top : Node) (a : Position) :
  in_closed (push_closed (set_que inst q) top) a -> in_closed inst a \/ a = position top.
Proof.
  unfold in_closed; simpl. rewrite map_app, in_app_iff. simpl. intuition.
Qed.

Lemma opt_inv_step (s s' : AStar) :
  opt_inv g start t s -> step g s = Continue s' -> opt_inv g start t s'.
Proof.
  intros Hi H. pose proof Hi as Hi0. destruct Hi as (Ht & Hnodes & K0 & K1).
  apply step_continue in H as (top & rest & E & _ & ->).
  assert (Hsort : forall m, In m (que s) -> In m (top :: rest)).
  { intros m Hm. rewrite <- E. exact (Permutation_in m (sort_nodes_perm _) Hm). }
  pose proof (sort_nodes_in _ _ _ E) as Hin.
  destruct (Hnodes top (Hin top (or_introl eq_refl))) as [Oktop Hhtop].
  split; [exact Ht|]. split; [|split].
  - intros m Hm. simpl in Hm. apply in_app_or in Hm as [Hm|Hm].
    + exact (Hnodes m (Hin m (or_intror Hm))).
    + apply in_map_iff in Hm as [p [<- Hp]].
      apply in_fresh_paths in Hp as [Hp _].
      split.
      * simpl. split; [exact Hp|]. split; [reflexivity|exact Oktop].
      * simpl. rewrite Ht. lia.
  - intros Hn.
    assert (Hs : ~ in_closed s start) by (intros C; apply Hn, in_closed_push; left; exact C).
    assert (Ht' : position top <> start) by (intros C; apply Hn, in_closed_push; right; auto).
    destruct (K0 Hs) as (n & Hq & Hp & Hc).
    destruct (Hsort n Hq) as [<-|Hr]; [contradiction|].
    exists n. split; [simpl; apply in_or_app; left; exact Hr|auto].
  - intros y Hy. destruct (in_closed_dec s y) as [Cy|Cy].
    + destruct (K1 y Cy) as (m & Hm & Hp & Opt & Nb).
      exists m. split; [simpl; apply in_or_app; left; exact Hm|].
      split; [exact Hp|]. split; [exact Opt|].
      intros q Hq. destruct (Nb q Hq) as [Cq|(n & Hn & Hpn & Hc)].
      * left. apply in_closed_push. left; exact Cq.
      * destruct (Hsort n Hn) as [<-|Hr].
        -- left. apply in_closed_push. right; auto.
        -- right. exists n. split; [simpl; apply in_or_app; left; exact Hr|auto].
    + destruct (in_closed_push_inv _ _ _ _ Hy) as [C|Ey]; [contradiction|]. subst y.
      exists top. split; [simpl; apply in_or_app; right; left; reflexivity|].
      split; [reflexivity|]. split.
      * intros Q Hw HQ. rewrite <- HQ in Cy.
        destruct (opt_inv_bound s Hi0 Q Hw Cy) as (n & Hn & Hb).
        pose proof (sort_nodes_head _ _ _ E n Hn) as Hle.
        rewrite HQ in Hb. lia.
      * intros q Hq. destruct (in_closed_dec s q) as [Cq|Cq].
        -- left. apply in_closed_push. left; exact Cq.
        -- right. exists (child g s top q). split.
           ++ simpl. apply in_or_app. right. apply in_map.
              apply in_fresh_paths. auto.
           ++ split; [reflexivity|]. simpl. lia.
Qed.

Lemma opt_inv_init : opt_inv g start t (init_state g start t).
Proof.
  split; [reflexivity|]. split; [|split].
  - intros m [<-|[]]. simpl. auto.
  - intros _. exists (Node_new start (calculate_heuristic_cost g start t)).
    simpl. auto.
  - intros y [].
Qed.

End Optimality.

(** The optimality argument for a run returning a path, from a heuristic
    consistent and 0 on targets, with no target node closed. *)
Lemma opt_result (g : PathGenerator) (start : Position) (t : Target)
    (fuel : nat) (s : AStar) (path : list Position)
    (HC : consistent g t)
    (HZ : forall p, satisfies t p = true -> calculate_heuristic_cost g p t = 0)
    (E : run_loop fuel g (init_state g start t) = Some (s, Some path))
    (HN : forall n, In n (closed_nodes s) -> satisfies t (position n) = false) :
  walk_from g start path /\ satisfies t (hd start path) = true /\
  forall P, walk_from g start P -> satisfies t (hd start P) = true ->
  path_cost g path <= path_cost g P.
Proof.
  apply (run_loop_inv (opt_inv g start t)) in E as [Hi R];
    [|exact (opt_inv_step g start t HC)|exact (opt_inv_init g start t)].
  apply step_return_some in R as (top & rest & Es & T & _ & ->).
  pose proof Hi as Hi0. destruct Hi as (Ht & Hnodes & _ & K1).
  assert (Htop : In top (que s)) by (apply (sort_nodes_in _ _ _ Es); left; reflexivity).
  destruct (Hnodes top Htop) as [Ok Hh].
  destruct (node_ok_path g start top Ok) as (Ch & Pre & _ & Co).
  rewrite target_is_reached_satisfies, Ht in T.
  rewrite reconstruct_path_ancestors in *. simpl hd.
  split; [split; assumption|]. split; [exact T|].
  intros P Hw HP.
  destruct (in_closed_dec s (hd start P)) as [C|C].
  - destruct (K1 _ C) as (m & Hm & Hpm & _).
    rewrite <- Hpm in HP. rewrite (HN m Hm) in HP. discriminate.
  - destruct (opt_inv_bound g start t HC s Hi0 P Hw C) as (n & Hn & Hb).
    pose proof (sort_nodes_head _ _ _ Es n Hn) as Hle.
    rewrite (HZ _ HP) in Hb. rewrite (HZ _ T) in Hh. lia.
Qed.

(** C1, corrected: with a heuristic that is consistent and 0 on target
    positions, when no [usize] addition of the run overflows, the run
    returns a path, and no node meeting the target has been closed on the
    way (a popped target node with no unclosed neighbour is closed instead
    of ending the search), the returned path is a walk from [start] to a
    target position whose accumulated cost is at most that of every such
    walk, i.e. the minimum; in a debug build as in a release build. *)
Theorem c1_consistent_optimal (b : Build) (g : PathGenerator) (start : Position)
    (t : Target) (fuel : nat) (s : AStar) (path : list Position)
    (HC : consistent g t)
    (HZ : forall p, satisfies t p = true -> calculate_heuristic_cost g p t = 0)
    (HO : no_overflow g start t)
    (E : run_loop_u b fuel g (init_state g start t) = Some (s, Ret (Some path)))
    (HN : forall n, In n (closed_nodes s) -> satisfies t (position n) = false) :
  walk_from g start path /\ satisfies t (hd start path) = true /\
  forall P, walk_from g start P -> satisfies t (hd start P) = true ->
  path_cost g path <= path_cost g P.
Proof.
  exact (opt_result g start t fuel s path HC HZ
           (run_loop_u_nat b g start t fuel s (Some path) HO E) HN).
Qed.

Lemma c1_consistent_optimal_witness :
  exists s, run_loop_u Release 20 g_zero (init_state g_zero (0, 0) (Some 5, Some 5))
              = Some (s, Ret (Some [(5, 5); (1, 1); (1, 0); (0, 0)])) /\
    (forall n, In n (closed_nodes s) -> satisfies (Some 5, Some 5) (position n) = false) /\
    path_cost g_zero [(5, 5); (1, 1); (1, 0); (0, 0)]
      <= path_cost g_zero [(5, 5); (1, 1); (0, 1); (0, 0)].
Proof.
  destruct (run_loop_u Release 20 g_zero (init_state g_zero (0, 0) (Some 5, Some 5)))
    as [[s r]|] eqn:E; [|vm_compute in E; discriminate E].
  pose proof E as E'. vm_compute in E'. injection E' as Hs Hr. subst r.
  assert (HN : forall n, In n (closed_nodes s) ->
                 satisfies (Some 5, Some 5) (position n) = false).
  { subst s. intros n Hn. simpl in Hn.
    repeat (destruct Hn as [<-|Hn]; [reflexivity|]). destruct Hn. }
  assert (HO : no_overflow g_zero (0, 0) (Some 5, Some 5))
    by (apply (no_overflow_check 20); vm_compute; reflexivity).
  exists s. split; [reflexivity|]. split; [exact HN|].
  apply (c1_consistent_optimal Release g_zero (0, 0) (Some 5, Some 5) 20 s _); auto.
  - intros p q _. simpl. lia.
  - split; [vm_compute; intuition|exists [(5, 5); (1, 1); (0, 1)]; reflexivity].
Defined.

Lemma incons_dist_consistent (p q : Position) :
  In q (generate_paths g_incons p) ->
  calculate_heuristic_cost incons_dist p (Some 5, Some 5)
    <= calculate_cost g_incons p q + calculate_heuristic_cost incons_dist q (Some 5, Some 5).
Proof.
  intros Hq. simpl in Hq. unfold graph_edges in Hq.
  destruct (find (fun e => pos_eqb (fst e) p) incons_edges) as [e|] eqn:F; [|destruct Hq].
  apply find_some in F as [Fin Feq]. apply pos_eqb_eq in Feq. subst p.
  simpl in Fin.
  repeat (destruct Fin as [<-|Fin];
          [simpl in Hq; repeat (destruct Hq as [<-|Hq]; [vm_compute; lia|]); destruct Hq|]).
  destruct Fin.
Qed.

Lemma g_incons_admissible : admissible g_incons (Some 5, Some 5).
Proof.
  intros p P Hw HP.
  assert (Hle : calculate_heuristic_cost g_incons p (Some 5, Some 5)
                <= calculate_heuristic_cost incons_dist p (Some 5, Some 5)).
  { simpl. destruct (pos_eqb (1, 0) p) eqn:E; [|lia].
    apply pos_eqb_eq in E. subst p. vm_compute. lia. }
  eapply Nat.le_trans; [exact Hle|].
  apply (consistent_admissible g_incons (Some 5, Some 5)
           (fun x => calculate_heuristic_cost incons_dist x (Some 5, Some 5))).
  - exact incons_dist_consistent.
  - intros x Hx. apply satisfies_spec in Hx as [H1 H2].
    destruct x as [x1 x2]. specialize (H1 5 eq_refl). specialize (H2 5 eq_refl).
    simpl in H1, H2. subst. reflexivity.
  - exact Hw.
  - exact HP.
Qed.

(** C1 as stated: with an admissible heuristic the returned path has the
    least accumulated cost.  [g_incons] has an admissible heuristic that is
    not consistent; (1, 1) is closed first through (0, 1) and never
    re-opened, so the run returns a path of cost 6 although the walk through
    (1, 0) costs 5. *)
Lemma c1_optimality_counterexample :
  ~ (forall g start t fuel path,
       admissible g t ->
       run fuel g start t = Some (Some path) ->
       forall P, walk_from g start P -> satisfies t (hd start P) = true ->
       path_cost g path <= path_cost g P).
Proof.
  intros H.
  specialize (H g_incons (0, 0) (Some 5, Some 5) 20 [(5, 5); (1, 1); (0, 1); (0, 0)]
                g_incons_admissible ltac:(vm_compute; reflexivity)
                [(5, 5); (1, 1); (1, 0); (0, 0)]).
  assert (Hw : walk_from g_incons (0, 0) [(5, 5); (1, 1); (1, 0); (0, 0)])
    by (split; [vm_compute; intuition|exists [(5, 5); (1, 1); (1, 0)]; reflexivity]).
  specialize (H Hw eq_refl). vm_compute in H. lia.
Qed.

(** The other way the run misses the cheapest target: in [g_slip] the
    target position (3, 0), reached at cost 1, has no neighbour, so it is
    closed without ending the search, and (3, 1) at cost 5 is returned,
    although the heuristic (0 everywhere) is consistent. *)
Lemma g_slip_dead_end_target :
  consistent g_slip (Some 3, None) /\
  run 20 g_slip (0, 0) (Some 3, None) = Some (Some [(3, 1); (0, 0)]) /\
  path_cost g_slip [(3, 1); (0, 0)] = 5 /\
  walk_from g_slip (0, 0) [(3, 0); (0, 0)] /\
  satisfies (Some 3, None) (3, 0) = true /\
  path_cost g_slip [(3, 0); (0, 0)] = 1.
Proof.
  split; [intros p q _; simpl; lia|].
  split; [vm_compute; reflexivity|].
  split; [reflexivity|].
  split; [split; [vm_compute; intuition|exists [(3, 0)]; reflexivity]|].
  split; reflexivity.
Qed.

(** * Further properties of the code *)

(** [PartialEq] and the overridden [PartialOrd] methods agree with [cmp]:
    all of them look at [heuristic_cost] only. *)
Theorem node_order_consistent (a b : Node) :
  node_partial_cmp a b = Some (node_cmp a b) /\
  (node_eq a b = true <-> node_cmp a b = Eq) /\
  (node_lt a b = true <-> node_cmp a b = Lt) /\
  (node_gt a b = true <-> node_cmp a b = Gt) /\
  (node_le a b = true <-> node_cmp a b <> Gt) /\
  (node_ge a b = true <-> node_cmp a b <> Lt).
Proof.
  unfold node_partial_cmp, node_eq, node_lt, node_gt, node_le, node_ge, node_cmp.
  rewrite Nat.eqb_eq, Nat.ltb_lt, Nat.ltb_lt, Nat.leb_le, Nat.leb_le,
    Nat.compare_eq_iff, Nat.compare_lt_iff, Nat.compare_gt_iff.
  split; [reflexivity|].
  repeat split; intros H; try lia;
    try (apply Nat.compare_le_iff; lia); try (apply Nat.compare_ge_iff; lia);
    try (apply Nat.compare_le_iff in H; lia); try (apply Nat.compare_ge_iff in H; lia).
Qed.

(** Ties are broken first-in-first-out: the node popped is the first node
    of the frontier among those of least [heuristic_cost]. *)
Theorem sort_nodes_fifo (l : list Node) (top : Node) (rest : list Node) :
  sort_nodes l = top :: rest ->
  exists pre post, l = pre ++ top :: post /\
    forall m, In m pre -> heuristic_cost top < heuristic_cost m.
Proof.
  revert top rest; induction l as [|x r IH]; intros top rest E; [discriminate|].
  simpl in E. destruct (sort_nodes r) as [|y r'] eqn:Er.
  - simpl in E. inversion E; subst. exists [], r. split; [reflexivity|intros m []].
  - simpl in E. destruct (node_cmp x y) eqn:C.
    + inversion E; subst. exists [], r. split; [reflexivity|intros m []].
    + inversion E; subst. exists [], r. split; [reflexivity|intros m []].
    + inversion E; subst. apply node_cmp_Gt in C.
      destruct (IH top r' eq_refl) as (pre & post & -> & Hpre).
      exists (x :: pre), post. split; [reflexivity|].
      intros m [<-|Hm]; [exact C|exact (Hpre m Hm)].
Qed.

Lemma sort_nodes_fifo_witness :
  sort_nodes [mkNode (0, 0) None 0 3; mkNode (1, 1) None 0 2; mkNode (2, 2) None 0 2]
    = [mkNode (1, 1) None 0 2; mkNode (2, 2) None 0 2; mkNode (0, 0) None 0 3] /\
  exists pre post,
    [mkNode (0, 0) None 0 3; mkNode (1, 1) None 0 2; mkNode (2, 2) None 0 2]
      = pre ++ mkNode (1, 1) None 0 2 :: post.
Proof.
  assert (E : sort_nodes [mkNode (0, 0) None 0 3; mkNode (1, 1) None 0 2;
                          mkNode (2, 2) None 0 2]
              = mkNode (1, 1) None 0 2 :: [mkNode (2, 2) None 0 2; mkNode (0, 0) None 0 3])
    by reflexivity.
  split; [exact E|].
  destruct (sort_nodes_fifo _ _ _ E) as (pre & post & H & _).
  exists pre, post. exact H.
Defined.

(** [pull_from_closed_by_position] returns the earliest closed node at the
    position, and [None] exactly when no closed node is there. *)
Theorem pull_from_closed_first (inst : AStar) (p : Position) :
  (pull_from_closed_by_position inst p = None <-> ~ in_closed inst p) /\
  (forall n, pull_from_closed_by_position inst p = Some n ->
     position n = p /\
     exists pre post, closed_nodes inst = pre ++ n :: post /\
       forall m, In m pre -> position m <> p).
Proof.
  split; [apply pull_from_closed_none|].
  unfold pull_from_closed_by_position. induction (closed_nodes inst) as [|x r IH];
    intros n H; simpl in H; [discriminate|].
  destruct (pos_eqb (position x) p) eqn:E.
  - inversion H; subst. apply pos_eqb_eq in E. split; [exact E|].
    exists [], r. split; [reflexivity|intros m []].
  - destruct (IH n H) as [Hp (pre & post & Hr & Hpre)]. split; [exact Hp|].
    exists (x :: pre), post. rewrite Hr. split; [reflexivity|].
    intros m [<-|Hm]; [|exact (Hpre m Hm)].
    intros C. rewrite C in E. rewrite (proj2 (pos_eqb_eq p p) eq_refl) in E. discriminate.
Qed.

Lemma pull_from_closed_first_witness :
  exists pre post,
    [mkNode (0, 0) None 0 0; mkNode (1, 1) None 0 5; mkNode (1, 1) None 0 7]
      = pre ++ mkNode (1, 1) None 0 5 :: post /\
    forall m, In m pre -> position m <> (1, 1).
Proof.
  exact (proj2 (proj2 (pull_from_closed_first
    (mkAStar (None, None) [] [mkNode (0, 0) None 0 0; mkNode (1, 1) None 0 5;
                              mkNode (1, 1) None 0 7]) (1, 1))
    (mkNode (1, 1) None 0 5) eq_refl)).
Defined.

Lemma push_possible_in (blocks acc cands : list Position) (q : Position) :
  In q (push_possible blocks acc cands) <->
  In q acc \/ (In q cands /\ ~ In q blocks).
Proof.
  unfold push_possible. revert acc; induction cands as [|c cs IH]; intros acc; simpl.
  - intuition.
  - rewrite IH. unfold path_is_possible.
    destruct (existsb (pos_eqb c) blocks) eqn:B.
    + apply existsb_pos_eqb in B. split.
      * intros [H|[H1 H2]]; [left; exact H|right; split; [right; exact H1|exact H2]].
      * intros [H|[[<-|H1] H2]]; [left; exact H|contradiction|right; auto].
    + assert (NB : ~ In c blocks) by (intros C; apply existsb_pos_eqb in C; congruence).
      rewrite in_app_iff. simpl. split.
      * intros [[H|[<-|[]]]|[H1 H2]]; [left; exact H|right; auto|right; auto].
      * intros [H|[[<-|H1] H2]]; [left; left; exact H|left; right; left; reflexivity|].
        right; auto.
Qed.

Lemma push_possible_filter (blocks acc cands : list Position) :
  push_possible blocks acc cands =
  acc ++ filter (fun p => negb (existsb (pos_eqb p) blocks)) cands.
Proof.
  unfold push_possible. revert acc; induction cands as [|c cs IH]; intros acc; simpl.
  - rewrite app_nil_r. reflexivity.
  - rewrite IH. unfold path_is_possible.
    destruct (existsb (pos_eqb c) blocks); simpl; [reflexivity|].
    rewrite <- app_assoc. reflexivity.
Qed.

Lemma map_generate_paths_char (blocks : list Position) (r c : nat) :
  NoDup (map_generate_paths blocks (r, c)) /\
  forall q, In q (map_generate_paths blocks (r, c)) <->
    ~ In q blocks /\
    (In q [(r + 1, c + 1); (r, c + 1); (r + 1, c)] \/
     (r <> 0 /\ c <> 0 /\ In q [(r - 1, c - 1); (r, c - 1); (r - 1, c)])).
Proof.
  unfold map_generate_paths; simpl fst; simpl snd. split.
  - rewrite push_possible_filter.
    destruct (negb (r =? 0) && negb (c =? 0)) eqn:B.
    + rewrite push_possible_filter, app_nil_l, <- filter_app.
      apply andb_true_iff in B as [B1 B2].
      apply negb_true_iff, Nat.eqb_neq in B1, B2.
      apply NoDup_filter.
      repeat constructor; simpl;
        intros H; repeat (destruct H as [H|H]; [injection H; lia|]); exact H.
    + rewrite app_nil_l. apply NoDup_filter.
      repeat constructor; simpl;
        intros H; repeat (destruct H as [H|H]; [injection H; lia|]); exact H.
  - intros q. rewrite push_possible_in.
    destruct (negb (r =? 0) && negb (c =? 0)) eqn:B.
    + rewrite push_possible_in.
      apply andb_true_iff in B as [B1 B2].
      apply negb_true_iff, Nat.eqb_neq in B1, B2.
      simpl In. intuition.
    + assert (NB : ~ (r <> 0 /\ c <> 0)).
      { intros [H1 H2]. apply Nat.eqb_neq in H1, H2. rewrite H1, H2 in B. discriminate. }
      simpl In. intuition.
Qed.


Lemma calc_usize_diff_sub (x y : nat) : calc_usize_diff x y = (x - y) + (y - x).
Proof. unfold calc_usize_diff. destruct (y <? x) eqn:E;
  [apply Nat.ltb_lt in E|apply Nat.ltb_ge in E]; lia. Qed.




Lemma calc_usize_diff_refl (x : nat) : calc_usize_diff x x = 0.
Proof. rewrite calc_usize_diff_sub. lia. Qed.





(** With both coordinates fixed, [Map]'s heuristic uses [^] (xor), so it is
    2 on the target itself and also 2 one step beside it: next to the
    target with a free cell, it overestimates and is not admissible. *)
Theorem map_heuristic_exact_not_admissible (blocks : list Position) (r c : nat)
    (Hr : r <> 0) (Hb : ~ In (r, c) blocks) :
  calculate_heuristic_cost (Map blocks) (r, c) (Some r, Some c) = 2 /\
  calculate_heuristic_cost (Map blocks) (r, S c) (Some r, Some c) = 2 /\
  ~ admissible (Map blocks) (Some r, Some c).
Proof.
  assert (D0 : calc_usize_diff r r = 0) by apply calc_usize_diff_refl.
  assert (D1 : calc_usize_diff c (S c) = 1) by (rewrite calc_usize_diff_sub; lia).
  assert (D2 : calc_usize_diff c c = 0) by apply calc_usize_diff_refl.
  split; [simpl; rewrite D0, D2; reflexivity|].
  split; [simpl; rewrite D0, D1; reflexivity|].
  intros Ha.
  assert (Hin : In (r, c) (map_generate_paths blocks (r, S c))).
  { apply (proj2 (map_generate_paths_char blocks r (S c))). split; [exact Hb|].
    right. split; [exact Hr|]. split; [discriminate|]. simpl. rewrite Nat.sub_0_r. auto. }
  specialize (Ha (r, S c) [(r, c); (r, S c)]).
  assert (W : walk_from (Map blocks) (r, S c) [(r, c); (r, S c)]).
  { split; [simpl; auto|exists [(r, c)]; reflexivity]. }
  specialize (Ha W). simpl hd in Ha.
  assert (S1 : satisfies (Some r, Some c) (r, c) = true)
    by (apply satisfies_spec; simpl; split; intros x E; injection E; auto).
  specialize (Ha S1). simpl in Ha. rewrite D0, D1 in Ha.
  assert (X : Nat.sqrt (Nat.lxor 0 2 + Nat.lxor 1 2) = 2) by reflexivity.
  rewrite X in Ha. lia.
Qed.

Lemma map_heuristic_exact_not_admissible_witness :
  3 <> 0 /\ ~ In (3, 3) [(2, 2)] /\ ~ admissible map_fixture (Some 3, Some 3).
Proof.
  assert (H1 : 3 <> 0) by lia.
  assert (H2 : ~ In (3, 3) [(2, 2)]) by (simpl; intros [E|[]]; discriminate E).
  split; [exact H1|]. split; [exact H2|].
  exact (proj2 (proj2 (map_heuristic_exact_not_admissible [(2, 2)] 3 3 H1 H2))).
Defined.

(** When the start has no neighbours the run returns [None] on its second
    iteration, even when the start itself meets the target: the popped
    start node is closed and the frontier is left empty. *)
Theorem run_no_neighbours (fuel : nat) (g : PathGenerator) (start : Position) (t : Target)
    (Hg : generate_paths g start = []) (Hf : 2 <= fuel) :
  run fuel g start t = Some None.
Proof.
  destruct fuel as [|[|f]]; [lia|lia|].
  unfold run. simpl.
  rewrite (step_spec g (init_state g start t)
             (Node_new start (calculate_heuristic_cost g start t)) [] eq_refl).
  change (position (Node_new start (calculate_heuristic_cost g start t))) with start.
  rewrite Hg, andb_false_r. reflexivity.
Qed.

Lemma run_no_neighbours_witness :
  satisfies (Some 1, Some 1) (1, 1) = true /\ run 2 g_dead (1, 1) (Some 1, Some 1) = Some None.
Proof.
  split; [reflexivity|]. apply run_no_neighbours; [reflexivity|lia].
Defined.

(** Bookkeeping of one iteration that goes on: the target is unchanged,
    exactly one node of the frontier (the one popped) is appended to the
    closed set, and the frontier loses it and gains one node per generated
    position not closed, a position generated twice giving two nodes. *)
Theorem step_bookkeeping (g : PathGenerator) (inst inst' : AStar)
    (H : step g inst = Continue inst') :
  exists top, In top (que inst) /\
    target inst' = target inst /\
    closed_nodes inst' = closed_nodes inst ++ [top] /\
    length (que inst') =
      length (que inst) - 1 + length (fresh_paths inst (generate_paths g (position top))) /\
    fresh_paths inst (generate_paths g (position top)) =
      filter (fun p => negb (existsb (pos_eqb p) (map position (closed_nodes inst))))
        (generate_paths g (position top)).
Proof.
  apply step_continue in H as (top & rest & E & _ & ->).
  exists top. split; [apply (sort_nodes_in _ _ _ E); left; reflexivity|].
  split; [reflexivity|]. split; [reflexivity|]. split.
  - simpl. rewrite length_app, length_map.
    pose proof (Permutation_length (sort_nodes_perm (que inst))) as L.
    rewrite E in L. simpl in L. lia.
  - unfold fresh_paths. apply filter_ext. intros p.
    destruct (pull_from_closed_by_position inst p) as [n|] eqn:P.
    + symmetry. apply negb_false_iff, existsb_pos_eqb.
      apply find_some in P as [Hn Hp]. apply pos_eqb_eq in Hp.
      apply in_map_iff. exists n. split; [exact Hp|exact Hn].
    + symmetry. apply negb_true_iff. apply not_true_iff_false. intros C.
      apply existsb_pos_eqb in C. exact (proj1 (pull_from_closed_none inst p) P C).
Qed.

Lemma step_bookkeeping_witness :
  exists s top, step map_fixture (init_state map_fixture (0, 0) (Some 3, Some 3)) = Continue s /\
    closed_nodes s = [] ++ [top] /\ target s = (Some 3, Some 3).
Proof.
  destruct (step map_fixture (init_state map_fixture (0, 0) (Some 3, Some 3)))
    as [r|s] eqn:E; [vm_compute in E; discriminate E|].
  destruct (step_bookkeeping _ _ _ E) as (top & _ & Ht & Hc & _).
  exists s, top. split; [reflexivity|]. split; [exact Hc|exact Ht].
Defined.









(** [run] yields [None] only by finding the frontier empty at the top of
    the loop; a popped node never makes it return [None]. *)
Theorem run_none_empty_frontier (fuel : nat) (g : PathGenerator) (inst s : AStar)
    (H : run_loop fuel g inst = Some (s, None)) :
  que s = [].
Proof.
  apply run_loop_return in H.
  destruct (sort_nodes (que s)) as [|top rest] eqn:E; [exact (sort_nodes_nil _ E)|].
  rewrite (step_spec g s top rest E) in H.
  destruct (target_is_reached s top && _); discriminate.
Qed.

Lemma run_none_empty_frontier_witness :
  exists s, run_loop 10 g_dead (init_state g_dead (0, 0) (Some 1, Some 1)) = Some (s, None) /\
    que s = [].
Proof.
  destruct (run_loop 10 g_dead (init_state g_dead (0, 0) (Some 1, Some 1)))
    as [[s r]|] eqn:E; [|vm_compute in E; discriminate E].
  pose proof E as E'. vm_compute in E'. injection E' as Hs Hr. subst r.
  exists s. split; [reflexivity|]. exact (run_none_empty_frontier _ _ _ _ E).
Defined.
